(** * updatectl: command resolution, dispatch and flag value adapters

    A shallow embedding of [cmd.go] of coreos/updatectl: the two flag value
    adapters ([StringFlag], [BoolFlag]), the command tree, the resolver
    [findCommand] and the entry point [main], with theorems about them. *)

From Stdlib Require Import ZArith Ascii String.
From stdpp Require Import base list strings.

Local Open Scope string_scope.
Local Open Scope list_scope.
Local Open Scope Z_scope.

(** ** Exit codes (the [const] block: [OK = iota] and the three that follow) *)

Definition OK : Z := 0.
Definition ERROR_API : Z := 1.
Definition ERROR_USAGE : Z := 2.
Definition ERROR_NO_COMMAND : Z := 3.

Definition cliName : string := "updatectl".
Definition cliDescription : string :=
  "updatectl is a command line driven interface to the roller.".

(** ** Flag value adapters

    Both adapters hold a pointer.  [StringFlag.Set] stores the address of its
    own parameter, a cell nobody else can reach, so a [StringFlag] is modelled
    by the optional string it points to.  [BoolFlag.Set] writes THROUGH the
    pointer it holds ([*f.value = false]), so the [bool] cells live in a
    store and a [BoolFlag] holds an optional address into it. *)

Module Adapters.

Record StringFlag := mkStringFlag {
  svalue : option string;
  required : bool
}.

Definition StringFlag_Set (value : string) (f : StringFlag)
  : option string * StringFlag :=
  (None, {| svalue := Some value; required := required f |}).

Definition StringFlag_Get (f : StringFlag) : option string := svalue f.

Definition StringFlag_String (f : StringFlag) : string :=
  match svalue f with
  | Some s => s
  | None => ""
  end.

(** The store of [bool] cells: address [l] is the [l]-th cell. *)
Definition addr := nat.
Abbreviation heap := (list bool).

Record BoolFlag := mkBoolFlag { value : option addr }.

(** A Go computation either completes or panics (nil dereference). *)
Inductive go (A : Type) : Type :=
| Done (a : A)
| Panic.
Arguments Done {A} a.
Arguments Panic {A}.

Definition go_bind {A B} (m : go A) (k : A -> go B) : go B :=
  match m with
  | Done a => k a
  | Panic => Panic
  end.

Notation "x <- m ;;; k" := (go_bind m (fun x => k))
  (at level 100, m at next level, right associativity).

(** [new(bool)]: a fresh zeroed cell. *)
Definition new_bool (h : heap) : addr * heap := (List.length h, h ++ [false]).

(** [*p = b]. *)
Definition store (p : option addr) (b : bool) (h : heap) : go heap :=
  match p with
  | None => Panic
  | Some l => if decide (l < List.length h)%nat then Done (<[l:=b]> h) else Panic
  end.

(** [*p]. *)
Definition load (p : option addr) (h : heap) : go bool :=
  match p with
  | None => Panic
  | Some l => match h !! l with Some b => Done b | None => Panic end
  end.

Definition falseVals : list string := ["0"; "f"; "false"; "FALSE"; "False"].
Definition truthVals : list string := ["1"; "t"; "true"; "TRUE"; "True"].

(** [for _, val := range falseVals { if val == value { *f.value = false } }] *)
Fixpoint falseLoop (vals : list string) (value_ : string)
         (f : BoolFlag) (h : heap) : go heap :=
  match vals with
  | [] => Done h
  | val :: vals' =>
      if String.eqb val value_
      then h' <- store (value f) false h ;;; falseLoop vals' value_ f h'
      else falseLoop vals' value_ f h
  end.

(** [for _, val := range truthVals
      { if val == value { f.value = new(bool); *f.value = true } }] *)
Fixpoint truthLoop (vals : list string) (value_ : string)
         (f : BoolFlag) (h : heap) : go (BoolFlag * heap) :=
  match vals with
  | [] => Done (f, h)
  | val :: vals' =>
      if String.eqb val value_
      then let '(l, h1) := new_bool h in
           let f1 := {| value := Some l |} in
           h2 <- store (value f1) true h1 ;;;
           truthLoop vals' value_ f1 h2
      else truthLoop vals' value_ f h
  end.

(** [%v] of a [[]string]. *)
Definition fmt_v (l : list string) : string :=
  "[" +:+ String.concat " " l +:+ "]".

Definition formatError : string :=
  "value must be one of " +:+ fmt_v truthVals +:+ ", " +:+ fmt_v falseVals.

(** [func (f *BoolFlag) Set(value string) error]: the returned error
    ([None] is [nil]), the adapter and the store afterwards. *)
Definition BoolFlag_Set (value_ : string) (f : BoolFlag) (h : heap)
  : go (option string * BoolFlag * heap) :=
  h1 <- falseLoop falseVals value_ f h ;;;
  fh <- truthLoop truthVals value_ f h1 ;;;
  let '(f2, h2) := fh in
  match value f2 with
  | None => Done (Some formatError, f2, h2)
  | Some _ => Done (None, f2, h2)
  end.

Definition BoolFlag_Get (f : BoolFlag) : option addr := value f.

(** [strconv.FormatBool]. *)
Definition FormatBool (b : bool) : string := if b then "true" else "false".

Definition BoolFlag_String (f : BoolFlag) (h : heap) : go string :=
  match value f with
  | Some _ => b <- load (value f) h ;;; Done (FormatBool b)
  | None => Done ""
  end.

(** What the adapter holds: nothing, or the [bool] its pointer leads to. *)
Definition held (f : BoolFlag) (h : heap) : option bool :=
  match value f with
  | Some l => h !! l
  | None => None
  end.

(** A pointer of the program leads to an allocated cell. *)
Definition valid (f : BoolFlag) (h : heap) : Prop :=
  match value f with
  | Some l => (l < List.length h)%nat
  | None => True
  end.

End Adapters.

(** ** What the process prints

    [out] is a buffered tab writer on standard output; [fmt.Printf] writes to
    standard output directly; [log.Fatal] writes to standard error.  The
    trace records each write in program order.  [printGlobalUsage] and
    [printCommandUsage] live in help.go: a call is recorded with the name of
    the node it was given. *)

Inductive Event : Type :=
| Fprintf (format : string) (operands : list string)
| Flush
| Printf (format : string) (operands : list string)
| GlobalUsage
| CommandUsage (name : string)
| LogFatal (err : string).

(** ** The generated API client (package client/update/v1) and its transport *)

Record Client := mkClient { hawkUser : string; hawkKey : string }.

Record Service := mkService { client : Client; BasePath : string }.

(** [func getHawkClient(user string, key string) *http.Client] *)
Definition getHawkClient (user key : string) : Client :=
  {| hawkUser := user; hawkKey := key |}.

(** [type handlerFunc func([]string, *update.Service, *tabwriter.Writer) int]:
    what the handler writes and the integer it returns. *)
Definition handlerFunc : Type := list string -> Service -> list Event * Z.

Record GlobalFlags := mkGlobalFlags {
  Server : string;
  User : string;
  Key : string;
  Debug : bool;
  Version : bool;
  Help : bool
}.

Section Dispatcher.

(** *** Package flag

    [flag.FlagSet] with the variables its flags are bound to, its [Parse]
    (returning the error: a [Command]'s flag set is a zero-value
    [flag.FlagSet], hence [ContinueOnError]) and its [Args]. *)
Variable FlagSet : Type.
Variable Parse : FlagSet -> list string -> FlagSet * option string.
Variable Args : FlagSet -> list string.

(** [globalFlagSet.Parse]: the flags of [globalFlagSet] are bound to the
    fields of [globalFlags], which parsing therefore writes. *)
Variable ParseGlobal :
  FlagSet -> GlobalFlags -> list string -> FlagSet * GlobalFlags * option string.

(** [globalFlagSet] is made with [flag.ExitOnError]: on an error [Parse]
    itself calls [os.Exit], with a code chosen by the library. *)
Variable exitOnError : string -> Z.

(** [update.New] and [version.Version]. *)
Variable update_New : Client -> Service + string.
Variable version_Version : string.

(** *** The command tree *)

#[local] Set Warnings "-register-all".

Inductive Command : Type := mkCommand {
  Name : string;
  Summary : string;
  Usage : string;
  Description : string;
  Flags : FlagSet;
  Run : option handlerFunc;
  Subcommands : list Command
}.

Definition withFlags (c : Command) (fl : FlagSet) : Command :=
  {| Name := Name c; Summary := Summary c; Usage := Usage c;
     Description := Description c; Flags := fl; Run := Run c;
     Subcommands := Subcommands c |}.

Definition withSubcommands (c : Command) (subs : list Command) : Command :=
  {| Name := Name c; Summary := Summary c; Usage := Usage c;
     Description := Description c; Flags := Flags c; Run := Run c;
     Subcommands := subs |}.

(** *** Package-level state and the process monad

    A computation reads and writes the package-level variables and either
    returns or ends the process through [os.Exit]. *)

Record Globals := mkGlobals {
  globalFlagSet : FlagSet;
  globalFlags : GlobalFlags;
  output : list Event
}.

Inductive Res (A : Type) : Type :=
| Ret (a : A) (g : Globals)
| Exit (code : Z) (g : Globals).
Arguments Ret {A} a g.
Arguments Exit {A} code g.

Definition M (A : Type) : Type := Globals -> Res A.

Definition ret {A} (a : A) : M A := fun g => Ret a g.

Definition bind {A B} (m : M A) (k : A -> M B) : M B :=
  fun g => match m g with
           | Ret a g' => k a g'
           | Exit code g' => Exit code g'
           end.

Notation "'let*' x ':=' m 'in' k" := (bind m (fun x => k))
  (at level 10, x pattern, m at level 100, k at level 200).
Notation "m ;; k" := (bind m (fun _ => k))
  (at level 100, right associativity).

Definition os_Exit {A} (code : Z) : M A := fun g => Exit code g.

(** The state after [es] was written. *)
Definition printed (g : Globals) (es : list Event) : Globals :=
  {| globalFlagSet := globalFlagSet g;
     globalFlags := globalFlags g;
     output := output g ++ es |}.

Definition emit (e : Event) : M unit := fun g => Ret tt (printed g [e]).

Fixpoint emits (es : list Event) : M unit :=
  match es with
  | [] => ret tt
  | e :: es' => emit e ;; emits es'
  end.

Definition getGlobals : M Globals := fun g => Ret g g.

Definition printCommandUsage (cmd : Command) : M unit :=
  emit (CommandUsage (Name cmd)).

Definition printGlobalUsage : M unit := emit GlobalUsage.

(** [func printVersion(out *tabwriter.Writer)] *)
Definition printVersion : M unit :=
  emit (Fprintf "%s version %s\n" [cliName; version_Version]) ;;
  emit Flush.

(** [log.Fatal(err)]: print, then [os.Exit(1)]. *)
Definition log_Fatal {A} (err : string) : M A :=
  emit (LogFatal err) ;; os_Exit 1.

(** *** The resolver *)

(** [search] as lines 193-197 recompute it. *)
Definition searchKey (search arg0 : string) : string :=
  if String.eqb search "" then arg0 else search +:+ " " +:+ arg0.

(** A call of [findCommand] yields the candidates as parsing left them,
    the node [cmd] points to (as it stands on return) and [name]. *)
Definition Found : Type := list Command * option Command * string.

(** The loop of lines 199-216 over [commands], [search] already
    recomputed and [rest] being [args[1:]]; [visit] is the body run on the
    first candidate whose name is [search]. *)
Definition scan (visit : Command -> string -> list string ->
                         M (Command * Command * string))
           (search : string) (rest : list string)
  : list Command -> M Found :=
  fix loop (commands : list Command) : M Found :=
    match commands with
    | [] => ret ([], None, search)
    | c :: cs =>
        if String.eqb (Name c) search
        then let* (c', cmd, name) := visit c search rest in
             ret (c' :: cs, Some cmd, name)
        else let* (cs', cmd, name) := loop cs in
             ret (c :: cs', cmd, name)
    end.

Definition findCommand_with (visit : Command -> string -> list string ->
                                     M (Command * Command * string))
           (search : string) (args : list string) (commands : list Command)
  : M Found :=
  match args with
  | [] => ret (commands, None, "")
  | arg0 :: rest => scan visit (searchKey search arg0) rest commands
  end.

(** Lines 201-214, run on the candidate [c] that matched: the node [c] as
    parsing leaves it, [cmd] and [name]. *)
Fixpoint matched (c : Command) (search : string) (rest : list string)
         {struct c} : M (Command * Command * string) :=
  let '(flags', errHelp) := Parse (Flags c) rest in
  let c1 := withFlags c flags' in
  match errHelp with
  | Some _ => printCommandUsage c1 ;; os_Exit ERROR_USAGE
  | None =>
      match Subcommands c with
      | [] => ret (c1, c1, search)
      | _ :: _ =>
          let subArgs := Args flags' in
          let* (subs', subCmd, name) :=
             findCommand_with matched search subArgs (Subcommands c) in
          let c2 := withSubcommands c1 subs' in
          match subCmd with
          | Some d => ret (c2, d, name)
          | None => ret (c2, c2, name)
          end
      end
  end.

(** [func findCommand(search string, args []string, commands []*Command)
          (cmd *Command, name string)] *)
Definition findCommand (search : string) (args : list string)
           (commands : list Command) : M Found :=
  findCommand_with matched search args commands.

(** *** The runner *)

(** [func handle(fn handlerFunc) func(f *flag.FlagSet) int] *)
Definition handle (fn : handlerFunc) (f : FlagSet) : M Z :=
  let* g := getGlobals in
  let user := User (globalFlags g) in
  let key := Key (globalFlags g) in
  let hawk := getHawkClient user key in
  match update_New hawk with
  | inr err => log_Fatal err
  | inl service =>
      let service' :=
        {| client := client service;
           BasePath := Server (globalFlags g) +:+ "/_ah/api/update/v1/" |} in
      let '(written, exit) := fn (Args f) service' in
      emits written ;; ret exit
  end.

(** Lines 235-237: no command given means [help]. *)
Definition orHelp (args : list string) : list string :=
  match args with
  | [] => args ++ ["help"]
  | _ :: _ => args
  end.

(** *** [func main()]

    [osArgs] is [os.Args[1:]] and [commands] the registry that [init]
    builds.  Every path ends in [os.Exit]. *)
Definition main (osArgs : list string) (commands : list Command) : M unit :=
  let* g := getGlobals in
  let '(fs, gf, err) := ParseGlobal (globalFlagSet g) (globalFlags g) osArgs in
  (fun _ => Ret tt {| globalFlagSet := fs; globalFlags := gf;
                      output := output g |}) ;;
  match err with
  | Some e => os_Exit (exitOnError e)
  | None =>
      let args := Args fs in
      if Version gf then printVersion ;; os_Exit OK
      else if Help gf then printGlobalUsage ;; os_Exit OK
      else
        let args := orHelp args in
        let* (_, cmd, name) := findCommand "" args commands in
        match cmd with
        | None =>
            emit (Printf "%v: unknown subcommand: %q\n" [cliName; name]) ;;
            emit (Printf "Run '%v help' for usage.\n" [cliName]) ;;
            os_Exit ERROR_NO_COMMAND
        | Some cmd =>
            match Run cmd with
            | None => printCommandUsage cmd ;; os_Exit ERROR_USAGE
            | Some run =>
                let* exit := handle run (Flags cmd) in
                (if Z.eqb exit ERROR_USAGE
                 then printCommandUsage cmd else ret tt) ;;
                os_Exit exit
            end
        end
  end.

(** *** Vocabulary of the statements *)

(** [c'] is the node [c] up to its flag set and its children. *)
Definition sameNode (c c' : Command) : Prop :=
  Name c' = Name c /\ Summary c' = Summary c /\ Usage c' = Usage c /\
  Description c' = Description c /\ Run c' = Run c.

(** Two forests that differ along one path at most: on each level at most
    one node differs, in its flag set and, in the same way, in its
    children. *)
Inductive pathOnly : list Command -> list Command -> Prop :=
| pathOnly_same (cs : list Command) : pathOnly cs cs
| pathOnly_hit (pre : list Command) (c c' : Command) (post : list Command) :
    sameNode c c' ->
    pathOnly (Subcommands c) (Subcommands c') ->
    pathOnly (pre ++ c :: post) (pre ++ c' :: post).

(** The [name] that comes back with the returned node [cmd]. *)
Definition nameOfNode (cmd : Command) (name : string) : Prop :=
  (Subcommands cmd = [] /\ name = Name cmd) \/
  (Subcommands cmd <> [] /\ Args (Flags cmd) = [] /\ name = "") \/
  (Subcommands cmd <> [] /\
   exists tok rest, Args (Flags cmd) = tok :: rest /\
     name = searchKey (Name cmd) tok /\
     Forall (fun d => Name d <> name) (Subcommands cmd)).

(** Induction over the command tree. *)
Fixpoint Command_tree_ind (P : Command -> Prop)
         (step : forall c, Forall P (Subcommands c) -> P c)
         (c : Command) {struct c} : P c :=
  match c as c0 return P c0 with
  | mkCommand n s u d f r subs =>
      step (mkCommand n s u d f r subs)
        ((fix children (l : list Command) : Forall P l :=
            match l with
            | [] => @List.Forall_nil _ P
            | x :: l' =>
                @List.Forall_cons _ P x l' (Command_tree_ind P step x) (children l')
            end) subs)
  end.

(** The state a computation ends in, returned or not. *)
Definition stateOf {A} (r : Res A) : Globals :=
  match r with
  | Ret _ g => g
  | Exit _ g => g
  end.

(** [failsAt search args commands d]: resolving [args] among [commands]
    follows matching names down to the node [d], whose flag set rejects
    the arguments left for it. *)
Inductive failsAt : string -> list string -> list Command -> Command -> Prop :=
| failsHere search tok rest pre c post fl e :
    Forall (fun d => Name d <> searchKey search tok) pre ->
    Name c = searchKey search tok ->
    Parse (Flags c) rest = (fl, Some e) ->
    failsAt search (tok :: rest) (pre ++ c :: post) c
| failsBelow search tok rest pre c post fl d :
    Forall (fun d => Name d <> searchKey search tok) pre ->
    Name c = searchKey search tok ->
    Parse (Flags c) rest = (fl, None) ->
    Subcommands c <> [] ->
    failsAt (searchKey search tok) (Args fl) (Subcommands c) d ->
    failsAt search (tok :: rest) (pre ++ c :: post) d.

(** [inTree c cs]: [c] is one of [cs] or a descendant of one of them. *)
Inductive inTree : Command -> list Command -> Prop :=
| inTree_here c cs : c ∈ cs -> inTree c cs
| inTree_below c d cs : d ∈ cs -> inTree c (Subcommands d) -> inTree c cs.

(** The same names, texts and handlers, all the way down. *)
Inductive sameTree : Command -> Command -> Prop :=
| sameTree_node c c' :
    sameNode c c' ->
    Forall2 sameTree (Subcommands c) (Subcommands c') ->
    sameTree c c'.

(** [resolves search args commands d name]: the walk that [findCommand]
    makes when every flag set on the way accepts its arguments.  It takes
    the first candidate [c] that carries the key and ends there, with the
    key as name, if [c] has no children; with the empty name, if [c] has
    children and its flag set left no argument; with the next key as name,
    if no child carries it; and it goes on below [c] otherwise. *)
Inductive resolves :
  string -> list string -> list Command -> Command -> string -> Prop :=
| resolvesLeaf search tok rest pre c post fl :
    Forall (fun d => Name d <> searchKey search tok) pre ->
    Name c = searchKey search tok ->
    Parse (Flags c) rest = (fl, None) ->
    Subcommands c = [] ->
    resolves search (tok :: rest) (pre ++ c :: post)
             (withFlags c fl) (searchKey search tok)
| resolvesNoArgs search tok rest pre c post fl :
    Forall (fun d => Name d <> searchKey search tok) pre ->
    Name c = searchKey search tok ->
    Parse (Flags c) rest = (fl, None) ->
    Subcommands c <> [] ->
    Args fl = [] ->
    resolves search (tok :: rest) (pre ++ c :: post) (withFlags c fl) ""
| resolvesFallback search tok rest pre c post fl tok2 rest2 :
    Forall (fun d => Name d <> searchKey search tok) pre ->
    Name c = searchKey search tok ->
    Parse (Flags c) rest = (fl, None) ->
    Args fl = tok2 :: rest2 ->
    Subcommands c <> [] ->
    Forall (fun d => Name d <> searchKey (searchKey search tok) tok2)
           (Subcommands c) ->
    resolves search (tok :: rest) (pre ++ c :: post)
             (withFlags c fl) (searchKey (searchKey search tok) tok2)
| resolvesDeeper search tok rest pre c post fl d name :
    Forall (fun d => Name d <> searchKey search tok) pre ->
    Name c = searchKey search tok ->
    Parse (Flags c) rest = (fl, None) ->
    Subcommands c <> [] ->
    resolves (searchKey search tok) (Args fl) (Subcommands c) d name ->
    resolves search (tok :: rest) (pre ++ c :: post) d name.

(** [onMatchedPath search args commands commands']: [commands'] is
    [commands] in which, on each level the walk reaches, the first candidate
    carrying the key of that level, and no other node, has the flag set
    that parsing its arguments yields; every other node, at every depth,
    is the node it was. *)
Inductive onMatchedPath :
  string -> list string -> list Command -> list Command -> Prop :=
| onMatchedPath_noargs search cs : onMatchedPath search [] cs cs
| onMatchedPath_miss search tok rest cs :
    Forall (fun c => Name c <> searchKey search tok) cs ->
    onMatchedPath search (tok :: rest) cs cs
| onMatchedPath_hit search tok rest pre c c' post :
    Forall (fun d => Name d <> searchKey search tok) pre ->
    Name c = searchKey search tok ->
    sameNode c c' ->
    Flags c' = fst (Parse (Flags c) rest) ->
    onMatchedPath (searchKey search tok) (Args (Flags c'))
                  (Subcommands c) (Subcommands c') ->
    onMatchedPath search (tok :: rest) (pre ++ c :: post) (pre ++ c' :: post).

(** The [name] that comes back when no node does. *)
Definition nameOfMiss (search : string) (args : list string)
           (commands : list Command) (name : string) : Prop :=
  (args = [] /\ name = "") \/
  (exists tok rest, args = tok :: rest /\
     name = searchKey search tok /\
     Forall (fun c => Name c <> name) commands).

End Dispatcher.

Arguments mkCommand {FlagSet} _ _ _ _ _ _ _.
Arguments Name {FlagSet} _.
Arguments Summary {FlagSet} _.
Arguments Usage {FlagSet} _.
Arguments Description {FlagSet} _.
Arguments Flags {FlagSet} _.
Arguments Run {FlagSet} _.
Arguments Subcommands {FlagSet} _.
Arguments mkGlobals {FlagSet} _ _ _.
Arguments globalFlagSet {FlagSet} _.
Arguments globalFlags {FlagSet} _.
Arguments output {FlagSet} _.
Arguments Ret {FlagSet A} _ _.
Arguments Exit {FlagSet A} _ _.
Arguments withFlags {FlagSet} _ _.
Arguments withSubcommands {FlagSet} _ _.
Arguments printed {FlagSet} _ _.
Arguments sameNode {FlagSet} _ _.
Arguments pathOnly {FlagSet} _ _.
Arguments pathOnly_same {FlagSet} _.
Arguments pathOnly_hit {FlagSet} _ _ _ _ _ _.
Arguments nameOfNode {FlagSet} _ _ _.
Arguments nameOfMiss {FlagSet} _ _ _ _.
Arguments scan {FlagSet} _ _ _ _.
Arguments Command_tree_ind {FlagSet} _ _ _.
Arguments inTree {FlagSet} _ _.
Arguments inTree_here {FlagSet} _ _ _.
Arguments inTree_below {FlagSet} _ _ _ _ _.
Arguments sameTree {FlagSet} _ _.
Arguments sameTree_node {FlagSet} _ _ _ _.
Arguments resolves {FlagSet} _ _ _ _ _ _ _.
Arguments onMatchedPath {FlagSet} _ _ _ _ _ _.
Arguments stateOf {FlagSet A} _.
Arguments failsAt {FlagSet} _ _ _ _ _ _.
Arguments findCommand_with {FlagSet} _ _ _ _.
Arguments matched {FlagSet} _ _ _ _ _.
Arguments findCommand {FlagSet} _ _ _ _ _.
Arguments handle {FlagSet} _ _ _ _.
Arguments main {FlagSet} _ _ _ _ _ _ _ _.

(** ** An instance of package flag

    Flag sets of boolean and string flags, parsed the way the library's
    [Parse] loop does: it stops at the first argument that is not a flag or
    after [--], takes [-name], [--name], [-name=value], and for a string
    flag without [=] the next argument as the value. *)

Module GoFlag.

Inductive kind : Type := KBool | KString.

Record FlagSet := mkFlagSet {
  formal : list (string * kind);
  actual : list (string * string);
  args : list string
}.

Fixpoint assoc {A} (k : string) (l : list (string * A)) : option A :=
  match l with
  | [] => None
  | (k', v) :: l' => if String.eqb k' k then Some v else assoc k l'
  end.

Definition member (s : string) (l : list string) : bool :=
  existsb (String.eqb s) l.

(** [strconv.ParseBool] *)
Definition ParseBool (s : string) : option bool :=
  if member s ["1"; "t"; "T"; "TRUE"; "true"; "True"] then Some true
  else if member s ["0"; "f"; "F"; "FALSE"; "false"; "False"] then Some false
  else None.

Definition isFlag (s : string) : bool :=
  match s with
  | String "-"%char (String _ _) => true
  | _ => false
  end.

Definition stripMinuses (s : string) : string :=
  match s with
  | String "-"%char (String "-"%char r) => r
  | String "-"%char r => r
  | _ => s
  end.

Definition badName (name : string) : bool :=
  match name with
  | EmptyString => true
  | String c _ => Ascii.eqb c "-"%char || Ascii.eqb c "="%char
  end.

Definition splitEq (name : string) : string * option string :=
  match String.index 1 "=" name with
  | Some i =>
      (String.substring 0 i name,
       Some (String.substring (i + 1) (String.length name - i - 1) name))
  | None => (name, None)
  end.

(** [%q] of a text in which nothing needs escaping. *)
Definition quote (s : string) : string :=
  String "034"%char (s +:+ String "034"%char EmptyString).

(** [actual] keeps what was written to the variables the flags are bound
    to, latest first.  A boolean flag given a text that [ParseBool] rejects
    has [false] written to its variable before the error is reported. *)
Fixpoint parseLoop (fm : list (string * kind)) (act : list (string * string))
         (arguments : list string) {struct arguments}
  : list (string * string) * list string * option string :=
  match arguments with
  | [] => (act, [], None)
  | s :: rest =>
      if negb (isFlag s) then (act, arguments, None)
      else if String.eqb s "--" then (act, rest, None)
      else
        let body := stripMinuses s in
        if badName body
        then (act, arguments, Some ("bad flag syntax: " +:+ s))
        else
          let '(name, val) := splitEq body in
          match assoc name fm with
          | None =>
              if String.eqb name "help" || String.eqb name "h"
              then (act, rest, Some "flag: help requested")
              else (act, rest,
                    Some ("flag provided but not defined: -" +:+ name))
          | Some KBool =>
              match val with
              | None => parseLoop fm ((name, "true") :: act) rest
              | Some v =>
                  match ParseBool v with
                  | Some b =>
                      parseLoop fm
                        ((name, if b then "true" else "false") :: act) rest
                  | None =>
                      ((name, "false") :: act, rest,
                       Some ("invalid boolean value " +:+ quote v +:+ " for -"
                             +:+ name +:+ ": parse error"))
                  end
              end
          | Some KString =>
              match val with
              | Some v => parseLoop fm ((name, v) :: act) rest
              | None =>
                  match rest with
                  | v :: rest' => parseLoop fm ((name, v) :: act) rest'
                  | [] => (act, rest,
                           Some ("flag needs an argument: -" +:+ name))
                  end
              end
          end
  end.

Definition Parse (f : FlagSet) (arguments : list string)
  : FlagSet * option string :=
  let '(act, rem, err) := parseLoop (formal f) (actual f) arguments in
  ({| formal := formal f; actual := act; args := rem |}, err).

Definition Args (f : FlagSet) : list string := args f.

Definition boolOr (d : bool) (v : option string) : bool :=
  match v with
  | Some s => String.eqb s "true"
  | None => d
  end.

(** The variables [init] binds to the flags of [globalFlagSet]. *)
Definition bound (f : FlagSet) (gf : GlobalFlags) : GlobalFlags :=
  {| Server := default (Server gf) (assoc "server" (actual f));
     User := default (User gf) (assoc "user" (actual f));
     Key := default (Key gf) (assoc "key" (actual f));
     Debug := boolOr (Debug gf) (assoc "debug" (actual f));
     Version := boolOr (Version gf) (assoc "version" (actual f));
     Help := boolOr (Help gf) (assoc "help" (actual f)) |}.

Definition ParseGlobal (f : FlagSet) (gf : GlobalFlags)
           (arguments : list string)
  : FlagSet * GlobalFlags * option string :=
  let '(f', err) := Parse f arguments in (f', bound f' gf, err).

(** As [init] declares it (lines 118-124). *)
Definition globalFlagSet0 : FlagSet :=
  {| formal := [("server", KString); ("debug", KBool); ("version", KBool);
                ("help", KBool); ("user", KString); ("key", KString)];
     actual := [];
     args := [] |}.

Definition globalFlags0 : GlobalFlags :=
  {| Server := "http://localhost:8000"; User := ""; Key := "";
     Debug := false; Version := false; Help := false |}.

Definition globals0 : Globals FlagSet :=
  mkGlobals globalFlagSet0 globalFlags0 [].

(** A flag set that declares no flag. *)
Definition noFlags : FlagSet := {| formal := []; actual := []; args := [] |}.

(** [ExitOnError]: [os.Exit(0)] when the error is [ErrHelp], [os.Exit(2)]
    otherwise. *)
Definition exitOnError (e : string) : Z :=
  if String.eqb e "flag: help requested" then 0 else 2.

Definition update_New (c : Client) : Service + string :=
  inl {| client := c; BasePath := "" |}.

(** An [update.New] that refuses every client. *)
Definition update_New_failing (_ : Client) : Service + string :=
  inr "client is nil".

Definition main_failing :=
  main Parse Args ParseGlobal exitOnError update_New_failing "0.1.0".

Definition findCommand := findCommand Parse Args.
Definition main := main Parse Args ParseGlobal exitOnError update_New "0.1.0".

(** A small registry: [app] with the children [app list] and
    [app create], and [help]. *)
Definition listHandler : handlerFunc := fun _ _ => ([Fprintf "apps\n" []], 0).
Definition createHandler : handlerFunc := fun a _ =>
  match a with
  | [] => ([], ERROR_USAGE)
  | _ :: _ => ([], OK)
  end.

Definition cmdAppList : Command FlagSet :=
  mkCommand "app list" "" "" "" noFlags (Some listHandler) [].
Definition cmdAppCreate : Command FlagSet :=
  mkCommand "app create" "" "" ""
    {| formal := [("label", KString)]; actual := []; args := [] |}
    (Some createHandler) [].
Definition cmdApp : Command FlagSet :=
  mkCommand "app" "" "" "" noFlags None [cmdAppList; cmdAppCreate].
Definition cmdHelp : Command FlagSet :=
  mkCommand "help" "" "" "" noFlags (Some (fun _ _ => ([GlobalUsage], OK))) [].
Definition commands0 : list (Command FlagSet) := [cmdApp; cmdHelp].

End GoFlag.


(** * Theorems *)

(** ** The tri-state boolean adapter *)

Section AdapterFacts.
Import Adapters.

Lemma falseLoop_skip (vals : list string) v f h :
  v ∉ vals -> falseLoop vals v f h = Done h.
Proof.
  induction vals as [|val vals IH]; intros Hv; [reflexivity|].
  apply not_elem_of_cons in Hv as [Hne Hv]. simpl.
  destruct (String.eqb_spec val v) as [->|_]; [congruence|auto].
Qed.

Lemma truthLoop_skip (vals : list string) v f h :
  v ∉ vals -> truthLoop vals v f h = Done (f, h).
Proof.
  induction vals as [|val vals IH]; intros Hv; [reflexivity|].
  apply not_elem_of_cons in Hv as [Hne Hv]. simpl.
  destruct (String.eqb_spec val v) as [->|_]; [congruence|auto].
Qed.

Lemma store_valid l b (h : heap) :
  (l < List.length h)%nat -> store (Some l) b h = Done (<[l:=b]> h).
Proof. intros Hl. unfold store. destruct (decide _); [reflexivity|lia]. Qed.

Lemma store_fresh b (h : heap) :
  store (Some (List.length h)) b (h ++ [false]) = Done (h ++ [b]).
Proof.
  rewrite store_valid by (rewrite length_app; simpl; lia).
  f_equal. rewrite insert_app_r_alt, Nat.sub_diag by lia. reflexivity.
Qed.

Ltac each_literal H :=
  repeat (apply elem_of_cons in H as [->|H]);
  [..|apply elem_of_nil in H; contradiction].

(** A falsy literal on an adapter that holds a value: the cell it points
    to becomes [false] and no error is returned. *)
Lemma BoolFlag_Set_falsy_when_set v l (h : heap) :
  v ∈ falseVals -> valid (mkBoolFlag (Some l)) h ->
  BoolFlag_Set v (mkBoolFlag (Some l)) h
    = Done (None, mkBoolFlag (Some l), <[l:=false]> h)
  /\ held (mkBoolFlag (Some l)) (<[l:=false]> h) = Some false.
Proof.
  intros Hv Hl. split.
  - unfold falseVals in Hv; each_literal Hv;
      unfold BoolFlag_Set; cbn -[store]; rewrite store_valid by done;
      reflexivity.
  - simpl. by apply list_lookup_insert_eq.
Qed.

(** A truthy literal, in any state: a fresh cell holding [true]. *)
Lemma BoolFlag_Set_truthy v f (h : heap) :
  v ∈ truthVals ->
  BoolFlag_Set v f h
    = Done (None, mkBoolFlag (Some (List.length h)), h ++ [true])
  /\ held (mkBoolFlag (Some (List.length h))) (h ++ [true]) = Some true.
Proof.
  intros Hv. split.
  - unfold truthVals in Hv; each_literal Hv;
      unfold BoolFlag_Set; cbn -[store app]; rewrite store_fresh;
      reflexivity.
  - unfold held; cbn [value].
    rewrite lookup_app_r by lia. by rewrite Nat.sub_diag.
Qed.

(** Any other input leaves adapter and store as they were; the error is
    returned exactly when the adapter holds no value. *)
Lemma BoolFlag_Set_other v f (h : heap) :
  v ∉ falseVals -> v ∉ truthVals ->
  BoolFlag_Set v f h
    = Done (match value f with
            | None => Some formatError
            | Some _ => None
            end, f, h).
Proof.
  intros Hf Ht. unfold BoolFlag_Set.
  rewrite falseLoop_skip by done. cbn [go_bind].
  rewrite truthLoop_skip by done. cbn [go_bind].
  destruct (value f); reflexivity.
Qed.

(** C2: on an adapter that was never set ([value] is nil) each falsy
    literal makes [Set] dereference nil: it panics instead of storing
    [false]. *)
Theorem BoolFlag_Set_falsy_unset_panics (h : heap) :
  Forall (fun v => BoolFlag_Set v (mkBoolFlag None) h = Panic) falseVals.
Proof. repeat constructor. Qed.

(** C5: on an adapter that holds a value, an input outside both literal
    sets is accepted: [Set] returns nil, not the format error (the stored
    value is unchanged). *)
Theorem BoolFlag_Set_other_when_set_no_error :
  BoolFlag_Set "yes" (mkBoolFlag (Some 0%nat)) [true]
    = Done (None, mkBoolFlag (Some 0%nat), [true])
  /\ ("yes" ∉ falseVals) /\ ("yes" ∉ truthVals).
Proof.
  split; [reflexivity|].
  split; intros H; [unfold falseVals in H|unfold truthVals in H];
    repeat (apply elem_of_cons in H as [H|H]; [discriminate H|]);
    by apply elem_of_nil in H.
Qed.

End AdapterFacts.

(** ** The resolver *)

Section ResolverFacts.

Context {FlagSet : Type}.
Context (Parse : FlagSet -> list string -> FlagSet * option string).
Context (Args : FlagSet -> list string).

Local Abbreviation Cmd := (Command FlagSet).

(** *** The equations of [matched] and of the scan *)

Lemma matched_fail (c : Cmd) search rest fl e g :
  Parse (Flags c) rest = (fl, Some e) ->
  matched Parse Args c search rest g
    = Exit ERROR_USAGE (printed g [CommandUsage (Name c)]).
Proof. intros HP. destruct c; simpl in *. rewrite HP. reflexivity. Qed.

Lemma matched_leaf (c : Cmd) search rest fl g :
  Parse (Flags c) rest = (fl, None) -> Subcommands c = [] ->
  matched Parse Args c search rest g = Ret (withFlags c fl, withFlags c fl, search) g.
Proof.
  intros HP HS. destruct c; simpl in *. rewrite HP. subst. reflexivity.
Qed.

Lemma matched_node (c : Cmd) search rest fl g :
  Parse (Flags c) rest = (fl, None) -> Subcommands c <> [] ->
  matched Parse Args c search rest g
    = match findCommand Parse Args search (Args fl) (Subcommands c) g with
      | Ret (subs', subCmd, name) g' =>
          let c2 := withSubcommands (withFlags c fl) subs' in
          Ret (c2, default c2 subCmd, name) g'
      | Exit code g' => Exit code g'
      end.
Proof.
  intros HP HS. destruct c as [n s u d f r subs]; simpl in *. rewrite HP.
  destruct subs as [|x subs]; [congruence|].
  unfold bind, findCommand.
  destruct (findCommand_with _ _ _ _ g) as [[[subs' [sub|]] name] g'|code g'];
    reflexivity.
Qed.

Lemma findCommand_nil search (commands : list Cmd) g :
  findCommand Parse Args search [] commands g = Ret (commands, None, "") g.
Proof. reflexivity. Qed.

Lemma findCommand_cons search tok rest (commands : list Cmd) :
  findCommand Parse Args search (tok :: rest) commands
    = scan (matched Parse Args) (searchKey search tok) rest commands.
Proof. reflexivity. Qed.

Lemma scan_miss visit key rest (cs : list Cmd) g :
  Forall (fun c => Name c <> key) cs ->
  scan visit key rest cs g = Ret (cs, None, key) g.
Proof.
  induction 1 as [|c cs Hc _ IH]; [reflexivity|].
  simpl. destruct (String.eqb_spec (Name c) key) as [?|_]; [done|].
  unfold bind. simpl in IH. rewrite IH. reflexivity.
Qed.

Lemma scan_hit visit key rest (pre : list Cmd) c post g :
  Forall (fun d => Name d <> key) pre -> Name c = key ->
  scan visit key rest (pre ++ c :: post) g
    = match visit c key rest g with
      | Ret (c', cmd, name) g' => Ret (pre ++ c' :: post, Some cmd, name) g'
      | Exit code g' => Exit code g'
      end.
Proof.
  intros Hpre Hc. induction Hpre as [|d pre Hd _ IH].
  - simpl. destruct (String.eqb_spec (Name c) key) as [_|?]; [|done].
    unfold bind. destruct (visit c key rest g) as [[[c' cmd] name] g'|];
      reflexivity.
  - simpl. destruct (String.eqb_spec (Name d) key) as [?|_]; [done|].
    unfold bind. simpl in IH. rewrite IH.
    destruct (visit c key rest g) as [[[c' cmd] name] g'|]; reflexivity.
Qed.

(** The scan either passes over every candidate or stops at the first one
    that carries the key. *)
Lemma first_named key (cs : list Cmd) :
  Forall (fun c => Name c <> key) cs \/
  exists pre c post, cs = pre ++ c :: post /\
    Forall (fun d => Name d <> key) pre /\ Name c = key.
Proof.
  induction cs as [|c cs IH]; [left; constructor|].
  destruct (String.eqb_spec (Name c) key) as [Heq|Hne].
  - right. exists [], c, cs. repeat split; [constructor|done].
  - destruct IH as [IH|(pre & d & post & -> & Hpre & Hd)].
    + left. by constructor.
    + right. exists (c :: pre), d, post. repeat split; [by constructor|done].
Qed.

(** Every call has one of three shapes. *)
Lemma findCommand_shape search args (commands : list Cmd) g :
  (args = [] /\ findCommand Parse Args search args commands g
                = Ret (commands, None, "") g) \/
  (exists tok rest, args = tok :: rest /\
     Forall (fun c => Name c <> searchKey search tok) commands /\
     findCommand Parse Args search args commands g
       = Ret (commands, None, searchKey search tok) g) \/
  (exists tok rest pre c post, args = tok :: rest /\
     commands = pre ++ c :: post /\
     Forall (fun d => Name d <> searchKey search tok) pre /\
     Name c = searchKey search tok /\
     findCommand Parse Args search args commands g
       = match matched Parse Args c (searchKey search tok) rest g with
         | Ret (c', cmd, name) g' =>
             Ret (pre ++ c' :: post, Some cmd, name) g'
         | Exit code g' => Exit code g'
         end).
Proof.
  destruct args as [|tok rest]; [left; split; reflexivity|right].
  rewrite findCommand_cons.
  destruct (first_named (searchKey search tok) commands)
    as [Hmiss|(pre & c & post & -> & Hpre & Hc)].
  - left. exists tok, rest. repeat split; [done|by apply scan_miss].
  - right. exists tok, rest, pre, c, post.
    repeat split; [done..|by apply scan_hit].
Qed.

(** *** What a matched node goes through *)

Lemma nil_or_not {A} (l : list A) : l = [] \/ l <> [].
Proof. destruct l; [by left|by right]. Qed.

Lemma matched_exit (c : Cmd) :
  forall key rest g code g',
    matched Parse Args c key rest g = Exit code g' ->
    code = ERROR_USAGE /\ exists n, g' = printed g [CommandUsage n].
Proof.
  induction c as [c IH] using Command_tree_ind.
  intros key rest g code g' H.
  destruct (Parse (Flags c) rest) as [fl [e|]] eqn:HP.
  - rewrite (matched_fail _ _ _ _ _ _ HP) in H. inversion H; eauto.
  - destruct (nil_or_not (Subcommands c)) as [HS|HS].
    + by rewrite (matched_leaf _ _ _ _ _ HP HS) in H.
    + rewrite (matched_node _ _ _ _ _ HP HS) in H.
      destruct (findCommand_shape key (Args fl) (Subcommands c) g)
        as [[_ E]|[(tok & r & _ & _ & E)
                  |(tok & r & pre & d & post & _ & Hsub & _ & _ & E)]];
        rewrite E in H; try discriminate H.
      destruct (matched Parse Args d (searchKey key tok) r g)
        as [[[d' cmd] name] g1|code1 g1] eqn:Hd; [discriminate H|].
      inversion H; subst code1 g1.
      rewrite Forall_forall in IH.
      apply (IH d) in Hd; [done|].
      rewrite Hsub. apply elem_of_app. right. by left.
Qed.

Lemma sameNode_withFlags (c : Cmd) fl : sameNode c (withFlags c fl).
Proof. by repeat split. Qed.

Lemma matched_ret (c : Cmd) :
  forall key rest g c' cmd name g',
    matched Parse Args c key rest g = Ret (c', cmd, name) g' ->
    g' = g /\ sameNode c c' /\
    pathOnly (Subcommands c) (Subcommands c') /\
    (Name c = key -> nameOfNode Args cmd name).
Proof.
  induction c as [c IH] using Command_tree_ind.
  intros key rest g c' cmd name g' H.
  destruct (Parse (Flags c) rest) as [fl [e|]] eqn:HP.
  { by rewrite (matched_fail _ _ _ _ _ _ HP) in H. }
  destruct (nil_or_not (Subcommands c)) as [HS|Hne].
  { rewrite (matched_leaf _ _ _ _ _ HP HS) in H. inversion H; subst.
    repeat split; try done.
    - simpl. constructor.
    - intros Hk. left. simpl. done. }
  rewrite (matched_node _ _ _ _ _ HP Hne) in H.
  destruct (findCommand_shape key (Args fl) (Subcommands c) g)
    as [[HA E]|[(tok & r & HA & Hmiss & E)
              |(tok & r & pre & d & post & HA & Hsub & Hpre & Hd & E)]];
    rewrite E in H.
  - inversion H; subst. repeat split; try done.
    + simpl. constructor.
    + intros _. right; left. simpl. done.
  - inversion H; subst. repeat split; try done.
    + simpl. constructor.
    + intros Hk. right; right. simpl. split; [done|].
      exists tok, r. by rewrite Hk.
  - destruct (matched Parse Args d (searchKey key tok) r g)
      as [[[d' sub] nm] g1|code1 g1] eqn:Hm; [|discriminate H].
    inversion H; subst.
    rewrite Forall_forall in IH.
    apply (IH d) in Hm as (-> & Hsame & Hpath & Hname);
      [|rewrite Hsub; apply elem_of_app; right; by left].
    repeat split; try done.
    + simpl. rewrite Hsub. by constructor.
    + intros _. by apply Hname.
Qed.

Lemma matched_onMatchedPath (c : Cmd) :
  forall key rest g c' cmd name g',
    matched Parse Args c key rest g = Ret (c', cmd, name) g' ->
    Flags c' = fst (Parse (Flags c) rest) /\
    onMatchedPath Parse Args key (Args (Flags c'))
                  (Subcommands c) (Subcommands c').
Proof.
  induction c as [c IH] using Command_tree_ind.
  intros key rest g c' cmd name g' H.
  destruct (Parse (Flags c) rest) as [fl [e|]] eqn:HP.
  { by rewrite (matched_fail _ _ _ _ _ _ HP) in H. }
  destruct (nil_or_not (Subcommands c)) as [HS|Hne].
  { rewrite (matched_leaf _ _ _ _ _ HP HS) in H. inversion H; subst.
    simpl. split; [done|]. rewrite HS.
    destruct (Args fl); constructor. constructor. }
  rewrite (matched_node _ _ _ _ _ HP Hne) in H.
  destruct (findCommand_shape key (Args fl) (Subcommands c) g)
    as [[HA E]|[(tok & r & HA & Hmiss & E)
              |(tok & r & pre & d & post & HA & Hsub & Hpre & Hd & E)]];
    rewrite E in H.
  - inversion H; subst. simpl. split; [done|]. rewrite HA. constructor.
  - inversion H; subst. simpl. split; [done|]. rewrite HA. by constructor.
  - destruct (matched Parse Args d (searchKey key tok) r g)
      as [[[d' sub] nm] g1|code1 g1] eqn:Hm; [|discriminate H].
    inversion H; subst. simpl. split; [done|]. rewrite HA, Hsub.
    pose proof Hm as Hm'. apply matched_ret in Hm' as (_ & Hsame & _ & _).
    rewrite Forall_forall in IH.
    apply (IH d) in Hm as [Hfl Hpath];
      [|rewrite Hsub; apply elem_of_app; right; by left].
    by constructor.
Qed.

Lemma findCommand_ret_onMatchedPath
      search args (commands : list Cmd) g cs' cmd name g' :
  findCommand Parse Args search args commands g = Ret (cs', cmd, name) g' ->
  onMatchedPath Parse Args search args commands cs'.
Proof.
  intros H.
  destruct (findCommand_shape search args commands g)
    as [[Ha E]|[(t & r & Ha & Hmiss & E)
              |(t & r & pre & d & post & Ha & -> & Hpre & Hd & E)]];
    rewrite E in H.
  - inversion H; subst. constructor.
  - inversion H; subst. by constructor.
  - destruct (matched Parse Args d (searchKey search t) r g)
      as [[[d' sub] nm] g1|] eqn:Hm; [|discriminate H].
    inversion H; subst.
    pose proof (matched_onMatchedPath _ _ _ _ _ _ _ _ Hm) as [Hfl Hon].
    apply matched_ret in Hm as (_ & Hsame & _ & _). by constructor.
Qed.

(** The first candidate carrying a key splits the candidates in one way. *)
Lemma first_named_unique key (pre1 pre2 : list Cmd) c1 c2 post1 post2 :
  pre1 ++ c1 :: post1 = pre2 ++ c2 :: post2 ->
  Forall (fun d => Name d <> key) pre1 -> Name c1 = key ->
  Forall (fun d => Name d <> key) pre2 -> Name c2 = key ->
  pre1 = pre2 /\ c1 = c2 /\ post1 = post2.
Proof.
  revert pre2. induction pre1 as [|p pre1 IH]; intros [|q pre2] E H1 Hc1 H2 Hc2;
    simpl in E.
  - by injection E as -> ->.
  - injection E as -> _. by inversion H2.
  - injection E as -> _. by inversion H1.
  - injection E as -> E. inversion H1; inversion H2; subst.
    destruct (IH pre2 E) as (-> & -> & ->); done.
Qed.

(** [onMatchedPath] leaves no freedom: it fixes the candidates that come
    back, node by node. *)
Lemma onMatchedPath_unique search args (cs cs1 cs2 : list Cmd) :
  onMatchedPath Parse Args search args cs cs1 ->
  onMatchedPath Parse Args search args cs cs2 ->
  cs1 = cs2.
Proof.
  intros H1. revert cs2.
  induction H1 as [search cs|search tok rest cs Hmiss
                  |search tok rest pre c c1 post Hpre Hc Hsame Hfl _ IH];
    intros cs2 H2.
  - by inversion H2.
  - inversion H2; subst; [done|].
    match goal with
    | Hn : Name ?c2 = searchKey search tok |- _ =>
        rewrite Forall_forall in Hmiss; exfalso; apply (Hmiss c2); [|done]
    end.
    apply elem_of_app. right. by left.
  - inversion H2; subst.
    + match goal with
      | Hm : Forall _ (pre ++ c :: post) |- _ =>
          rewrite Forall_forall in Hm; exfalso; apply (Hm c); [|done]
      end.
      apply elem_of_app. right. by left.
    + match goal with
      | E : ?pre2 ++ ?c2 :: ?post2 = pre ++ c :: post,
        Hpre2 : Forall _ ?pre2, Hc2 : Name ?c2 = _,
        Hsame2 : sameNode ?c2 ?c2', Hfl2 : Flags ?c2' = _,
        Hsub2 : onMatchedPath _ _ _ _ (Subcommands ?c2) (Subcommands ?c2')
        |- _ =>
          destruct (first_named_unique _ _ _ _ _ _ _ E Hpre2 Hc2 Hpre Hc)
            as (-> & -> & ->);
          assert (Hf : Flags c1 = Flags c2') by (by rewrite Hfl, Hfl2);
          rewrite <- Hf in Hsub2; apply IH in Hsub2;
          destruct Hsame as (? & ? & ? & ? & ?);
          destruct Hsame2 as (? & ? & ? & ? & ?);
          destruct c1, c2'; simpl in *; congruence
      end.
Qed.

(** Replacing the [i]-th element leaves the others where they are. *)
Lemma lookup_middle_other (pre : list Cmd) d d' post i c :
  (pre ++ d :: post) !! i = Some c -> i <> List.length pre ->
  (pre ++ d' :: post) !! i = Some c.
Proof.
  revert i. induction pre as [|p pre IH]; intros [|i] H Hi; simpl in *;
    try done.
  apply IH; [done|lia].
Qed.

Lemma scan_skip visit key rest (pre post : list Cmd) g :
  Forall (fun d => Name d <> key) pre ->
  scan visit key rest (pre ++ post) g
    = match scan visit key rest post g with
      | Ret (post', cmd, name) g' => Ret (pre ++ post', cmd, name) g'
      | Exit code g' => Exit code g'
      end.
Proof.
  induction 1 as [|d pre Hd _ IH]; simpl.
  - by destruct (scan visit key rest post g) as [[[post' cmd] name] g'|].
  - destruct (String.eqb_spec (Name d) key) as [?|_]; [done|].
    unfold bind. simpl in IH. rewrite IH.
    by destruct (scan visit key rest post g) as [[[post' cmd] name] g'|].
Qed.

(** *** The claims about the resolver *)

(** C1, as amended: at every level the key a candidate is compared with is
    the accumulated name ([args[0]] alone only while [search] is empty,
    [search], a space and [args[0]] otherwise).  Some node is taken exactly
    when a candidate carries that key; the scan takes the first candidate
    that carries it and passes over one that does not. *)
Theorem findCommand_matches_accumulated_name
        search tok rest (commands : list Cmd) g :
  let key := if String.eqb search "" then tok else search +:+ " " +:+ tok in
  ((exists c, c ∈ commands /\ Name c = key) <->
   (forall cs' name g',
      findCommand Parse Args search (tok :: rest) commands g
        <> Ret (cs', None, name) g'))
  /\ (forall pre c post,
        commands = pre ++ c :: post ->
        Forall (fun d => Name d <> key) pre ->
        (Name c = key ->
         findCommand Parse Args search (tok :: rest) commands g
           = match matched Parse Args c key rest g with
             | Ret (c', cmd, name) g' =>
                 Ret (pre ++ c' :: post, Some cmd, name) g'
             | Exit code g' => Exit code g'
             end) /\
        (Name c <> key ->
         findCommand Parse Args search (tok :: rest) commands g
           = match findCommand Parse Args search (tok :: rest) post g with
             | Ret (post', cmd, name) g' =>
                 Ret (pre ++ c :: post', cmd, name) g'
             | Exit code g' => Exit code g'
             end)).
Proof.
  intros key. fold (searchKey search tok) in key. subst key.
  split; [split|].
  - intros (c & Hin & Hc) cs' name g' E.
    destruct (findCommand_shape search (tok :: rest) commands g)
      as [[? _]|[(t & r & Ha & Hmiss & _)
                |(t & r & pre & d & post & Ha & _ & _ & _ & E')]];
      [done|..]; injection Ha as <- <-.
    + rewrite Forall_forall in Hmiss. by apply (Hmiss c).
    + rewrite E' in E.
      by destruct (matched Parse Args d (searchKey search tok) rest g)
        as [[[d' cmd] nm] g1|].
  - intros Hsel.
    destruct (first_named (searchKey search tok) commands)
      as [Hmiss|(pre & c & post & -> & _ & Hc)].
    + exfalso. eapply Hsel. rewrite findCommand_cons. by apply scan_miss.
    + exists c. split; [|done]. apply elem_of_app. right. by left.
  - intros pre c post -> Hpre. rewrite !findCommand_cons. split; intros Hc.
    + by apply scan_hit.
    + replace (pre ++ c :: post) with ((pre ++ [c]) ++ post)
        by (by rewrite <- app_assoc).
      rewrite scan_skip by (apply Forall_app; split; [done|by constructor]).
      destruct (scan _ _ _ post g) as [[[post' cmd] name] g'|]; [|done].
      by rewrite <- app_assoc.
Qed.

(** C3, as amended: with no argument the resolver returns no node and the
    EMPTY name (the zero value of the named result), whatever [search] is;
    no flag set is touched. *)
Theorem findCommand_no_args_empty_name search (commands : list Cmd) g :
  findCommand Parse Args search [] commands g = Ret (commands, None, "") g.
Proof. reflexivity. Qed.

(** C4, as amended: the name that comes back is the accumulated name of
    the last level tried.  Without a node it is empty (no argument) or
    [search] joined with [args[0]], the token no candidate carries.  With a
    node it is the node's own name if the node has no children, empty if
    it has children and its flag set left no argument, and otherwise the
    node's name joined with the first argument left, a token none of its
    children carries. *)
Theorem findCommand_name_of_last_level
        search args (commands : list Cmd) g cs' cmd name g' :
  findCommand Parse Args search args commands g = Ret (cs', cmd, name) g' ->
  match cmd with
  | None => nameOfMiss search args commands name
  | Some d => nameOfNode Args d name
  end.
Proof.
  intros H.
  destruct (findCommand_shape search args commands g)
    as [[Ha E]|[(t & r & Ha & Hmiss & E)
              |(t & r & pre & d & post & Ha & _ & _ & Hd & E)]];
    rewrite E in H.
  - inversion H; subst. by left.
  - inversion H; subst. right. by exists t, r.
  - destruct (matched Parse Args d (searchKey search t) r g)
      as [[[d' sub] nm] g1|] eqn:Hm; [|discriminate H].
    inversion H; subst.
    by apply matched_ret in Hm as (_ & _ & _ & Hname); auto.
Qed.

(** C6: when resolution reaches a matched node [d] whose flag set rejects
    its arguments, at whatever depth, the call does not return: the
    process exits with [ERROR_USAGE] having printed the usage of [d], and
    nothing else. *)
Theorem findCommand_parse_failure_exits_with_node_usage
        search args (commands : list Cmd) d g :
  failsAt Parse Args search args commands d ->
  findCommand Parse Args search args commands g
    = Exit ERROR_USAGE
        (mkGlobals (globalFlagSet g) (globalFlags g)
                   (output g ++ [CommandUsage (Name d)])).
Proof.
  intros H. revert g.
  induction H as [search tok rest pre c post fl e Hpre Hc HP
                 |search tok rest pre c post fl d Hpre Hc HP HS _ IH];
    intros g; rewrite findCommand_cons, (scan_hit _ _ _ _ _ _ _ Hpre Hc).
  - by rewrite (matched_fail _ _ _ _ _ _ HP).
  - by rewrite (matched_node _ _ _ _ _ HP HS), IH.
Qed.

Lemma findCommand_exit search args (commands : list Cmd) g code g' :
  findCommand Parse Args search args commands g = Exit code g' ->
  code = ERROR_USAGE /\ exists n, g' = printed g [CommandUsage n].
Proof.
  intros H.
  destruct (findCommand_shape search args commands g)
    as [[_ E]|[(t & r & _ & _ & E)|(t & r & pre & d & post & _ & _ & _ & _ & E)]];
    rewrite E in H; try discriminate H.
  destruct (matched Parse Args d (searchKey search t) r g)
    as [[[d' sub] nm] g1|code1 g1] eqn:Hm; [discriminate H|].
  inversion H; subst. by apply matched_exit in Hm.
Qed.

(** C10: a call of the resolver never writes the global flag set nor the
    variables bound to it, whether it returns or exits.  When it returns,
    the only nodes whose flag set was written are those of the matched
    path: on each level the walk reaches, the first candidate carrying the
    key of that level, whose flag set is what parsing its arguments
    yields; every other node, at every depth, is as it was.  In
    particular every candidate of the call that was not taken (its name is
    not the key, or an earlier candidate carries the key) is, with all its
    descendants, as it was. *)
Theorem findCommand_touches_matched_path_only
        search args (commands : list Cmd) g :
  globalFlagSet (stateOf (findCommand Parse Args search args commands g))
    = globalFlagSet g /\
  globalFlags (stateOf (findCommand Parse Args search args commands g))
    = globalFlags g /\
  forall cs' cmd name g',
    findCommand Parse Args search args commands g = Ret (cs', cmd, name) g' ->
    g' = g /\ onMatchedPath Parse Args search args commands cs' /\
    pathOnly commands cs' /\
    forall i c,
      commands !! i = Some c ->
      (forall tok rest, args = tok :: rest ->
         Name c <> searchKey search tok \/
         exists j e, (j < i)%nat /\ commands !! j = Some e /\
                     Name e = searchKey search tok) ->
      cs' !! i = Some c.
Proof.
  assert (Hret : forall cs' cmd name g',
    findCommand Parse Args search args commands g = Ret (cs', cmd, name) g' ->
    g' = g /\ onMatchedPath Parse Args search args commands cs' /\
    pathOnly commands cs' /\
    forall i c,
      commands !! i = Some c ->
      (forall tok rest, args = tok :: rest ->
         Name c <> searchKey search tok \/
         exists j e, (j < i)%nat /\ commands !! j = Some e /\
                     Name e = searchKey search tok) ->
      cs' !! i = Some c).
  { intros cs' cmd name g' H.
    destruct (findCommand_shape search args commands g)
      as [[Ha E]|[(t & r & Ha & Hmiss & E)
                |(t & r & pre & d & post & Ha & -> & Hpre & Hd & E)]];
      rewrite E in H.
    - inversion H; subst. repeat split; [constructor|constructor|done].
    - inversion H; subst. repeat split; [by constructor|constructor|done].
    - destruct (matched Parse Args d (searchKey search t) r g)
        as [[[d' sub] nm] g1|] eqn:Hm; [|discriminate H].
      inversion H; subst.
      pose proof (matched_onMatchedPath _ _ _ _ _ _ _ _ Hm) as [Hfl Hon].
      apply matched_ret in Hm as (-> & Hsame & Hpath & _).
      repeat split; [by constructor|by constructor|].
      intros i c Hi Hnot. apply (lookup_middle_other _ _ _ _ _ _ Hi).
      intros ->. rewrite list_lookup_middle in Hi by done.
      injection Hi as <-.
      destruct (Hnot t r eq_refl) as [?|(j & e & Hj & He & Hn)]; [done|].
      rewrite lookup_app_l in He by done.
      rewrite Forall_forall in Hpre. apply (Hpre e); [|done].
      by eapply list_elem_of_lookup_2. }
  assert (Hst : exists es,
    stateOf (findCommand Parse Args search args commands g) = printed g es).
  { destruct (findCommand Parse Args search args commands g)
      as [[[cs' cmd] name] g'|code g'] eqn:E; simpl.
    - destruct (Hret _ _ _ _ eq_refl) as (-> & _). exists [].
      destruct g; unfold printed; simpl. by rewrite app_nil_r.
    - apply findCommand_exit in E as (_ & n & ->). eauto. }
  destruct Hst as [es ->]. split; [done|split; [done|exact Hret]].
Qed.

End ResolverFacts.

(** ** The runner *)

Section RunnerFacts.

Context {FlagSet : Type}.
Context (Parse : FlagSet -> list string -> FlagSet * option string).
Context (Args : FlagSet -> list string).
Context (ParseGlobal : FlagSet -> GlobalFlags -> list string ->
                       FlagSet * GlobalFlags * option string).
Context (exitOnError : string -> Z).
Context (update_New : Client -> Service + string).
Context (version_Version : string).

Local Abbreviation Cmd := (Command FlagSet).
Local Abbreviation run_main :=
  (main Parse Args ParseGlobal exitOnError update_New version_Version).

Lemma emits_printed (es : list Event) (g : Globals FlagSet) :
  emits FlagSet es g = Ret tt (printed g es).
Proof.
  revert g. induction es as [|e es IH]; intros g; simpl.
  - unfold ret, printed. destruct g; simpl. by rewrite app_nil_r.
  - unfold bind, emit. rewrite IH. unfold printed; simpl.
    by rewrite <- app_assoc.
Qed.

(** Past the global flags, [main] is the resolver followed by lines
    241-256. *)
Lemma main_resolves osArgs (commands : list Cmd) g fs gf :
  ParseGlobal (globalFlagSet g) (globalFlags g) osArgs = (fs, gf, None) ->
  Version gf = false -> Help gf = false ->
  run_main osArgs commands g
    = match findCommand Parse Args "" (orHelp (Args fs)) commands
              (mkGlobals fs gf (output g)) with
      | Exit code g' => Exit code g'
      | Ret (_, None, name) g' =>
          Exit ERROR_NO_COMMAND
            (printed g' [Printf "%v: unknown subcommand: %q\n" [cliName; name];
                         Printf "Run '%v help' for usage.\n" [cliName]])
      | Ret (_, Some cmd, _) g' =>
          match Run cmd with
          | None => Exit ERROR_USAGE (printed g' [CommandUsage (Name cmd)])
          | Some run =>
              match handle Args update_New run (Flags cmd) g' with
              | Exit code g2 => Exit code g2
              | Ret exit g2 =>
                  Exit exit
                    (printed g2 (if Z.eqb exit ERROR_USAGE
                                 then [CommandUsage (Name cmd)] else []))
              end
          end
      end.
Proof.
  intros HP HV HH. unfold main, bind, getGlobals. rewrite HP, HV, HH.
  destruct (findCommand _ _ _ _ _ _) as [[[cs' [cmd|]] name] g'|code g'];
    try reflexivity.
  - destruct (Run cmd) as [run|]; [|reflexivity].
    destruct (handle _ _ _ _ _) as [exit g2|code g2]; [|reflexivity].
    destruct (Z.eqb exit ERROR_USAGE); [reflexivity|].
    unfold ret, os_Exit, printed. destruct g2; simpl. by rewrite app_nil_r.
  - unfold emit, os_Exit, printed; simpl. by rewrite <- app_assoc.
Qed.

Lemma handle_runs (run : handlerFunc) f g service written exit :
  update_New (getHawkClient (User (globalFlags g)) (Key (globalFlags g)))
    = inl service ->
  run (Args f) {| client := client service;
                  BasePath := Server (globalFlags g) +:+ "/_ah/api/update/v1/" |}
    = (written, exit) ->
  handle Args update_New run f g = Ret exit (printed g written).
Proof.
  intros HN HR. unfold handle, bind, getGlobals. rewrite HN, HR.
  by rewrite emits_printed.
Qed.

(** C7: for a resolved node with a handler, the process exits with the
    integer the handler returned, whatever it is; what is printed is what
    the handler wrote, followed by the usage of that node exactly when the
    integer is [ERROR_USAGE]. *)
Theorem main_exits_with_handler_result
        osArgs (commands : list Cmd) g fs gf cs' cmd name
        (run : handlerFunc) service written exit :
  ParseGlobal (globalFlagSet g) (globalFlags g) osArgs = (fs, gf, None) ->
  Version gf = false -> Help gf = false ->
  findCommand Parse Args "" (orHelp (Args fs)) commands
      (mkGlobals fs gf (output g))
    = Ret (cs', Some cmd, name) (mkGlobals fs gf (output g)) ->
  Run cmd = Some run ->
  update_New (getHawkClient (User gf) (Key gf)) = inl service ->
  run (Args (Flags cmd))
      {| client := client service;
         BasePath := Server gf +:+ "/_ah/api/update/v1/" |}
    = (written, exit) ->
  run_main osArgs commands g
    = Exit exit
        (mkGlobals fs gf
           (output g ++ written ++
            (if Z.eqb exit ERROR_USAGE
             then [CommandUsage (Name cmd)] else []))).
Proof.
  intros HP HV HH HF HR HN Hrun.
  rewrite (main_resolves _ _ _ _ _ HP HV HH), HF, HR.
  rewrite (handle_runs run _ _ service written exit) by done.
  unfold printed; simpl. by rewrite <- app_assoc.
Qed.

(** C8: when the first token is the name of no top-level command, the
    resolver returns no node and that token as the name, and the process
    prints the unknown-subcommand line and the hint and exits with
    [ERROR_NO_COMMAND]. *)
Theorem main_unknown_command
        osArgs (commands : list Cmd) g fs gf tok rest :
  ParseGlobal (globalFlagSet g) (globalFlags g) osArgs = (fs, gf, None) ->
  Version gf = false -> Help gf = false ->
  orHelp (Args fs) = tok :: rest ->
  Forall (fun c => Name c <> tok) commands ->
  (forall g0, findCommand Parse Args "" (tok :: rest) commands g0
              = Ret (commands, None, tok) g0) /\
  run_main osArgs commands g
    = Exit ERROR_NO_COMMAND
        (mkGlobals fs gf
           (output g ++
            [Printf "%v: unknown subcommand: %q\n" [cliName; tok];
             Printf "Run '%v help' for usage.\n" [cliName]])) /\
  ERROR_NO_COMMAND <> OK /\ ERROR_NO_COMMAND <> ERROR_API /\
  ERROR_NO_COMMAND <> ERROR_USAGE.
Proof.
  intros HP HV HH Ha Hmiss.
  assert (E : forall g0, findCommand Parse Args "" (tok :: rest) commands g0
                         = Ret (commands, None, tok) g0).
  { intros g0. rewrite findCommand_cons. by apply scan_miss. }
  split; [exact E|]. split; [|done].
  by rewrite (main_resolves _ _ _ _ _ HP HV HH), Ha, E.
Qed.

(** C9: when the global flags parse and leave [Version] or [Help] set,
    the process prints the version (or, [Version] being unset, the global
    usage) and exits with [OK].  The outcome mentions neither the
    registry, nor the flag sets of the commands, nor [update.New]: it is
    the same for all of them, no resolution and no client being reached. *)
Theorem main_version_help_short_circuit
        osArgs (commands : list Cmd) g fs gf :
  ParseGlobal (globalFlagSet g) (globalFlags g) osArgs = (fs, gf, None) ->
  Version gf = true \/ Help gf = true ->
  run_main osArgs commands g
    = Exit OK
        (mkGlobals fs gf
           (output g ++
            (if Version gf
             then [Fprintf "%s version %s\n" [cliName; version_Version];
                   Flush]
             else [GlobalUsage]))).
Proof.
  intros HP Hflag. unfold main, bind, getGlobals. rewrite HP.
  destruct (Version gf) eqn:HV.
  - unfold printVersion, bind, emit, os_Exit, printed; simpl.
    by rewrite <- app_assoc.
  - destruct Hflag as [?|HH]; [done|]. rewrite HH. reflexivity.
Qed.

End RunnerFacts.

(** ** The claims on the sample registry *)

Section Samples.
Import GoFlag.

Local Abbreviation g0 := globals0.

Ltac names_differ := repeat constructor; simpl; discriminate.

(** C1 as stated fails below the top level: with [search] being [app], a
    candidate named by the bare token [list] is passed over, and the
    candidate named [app list], which is not the bare token, is taken. *)
Lemma bare_token_is_not_the_key_below_top :
  let bare := mkCommand "list" "" "" "" noFlags None [] in
  (Name bare = "list" /\
   findCommand "app" ["list"] [bare] g0 = Ret ([bare], None, "app list") g0)
  /\
  (Name cmdAppList <> "list" /\
   findCommand "app" ["list"] [cmdAppList] g0
     = Ret ([cmdAppList], Some cmdAppList, "app list") g0).
Proof. repeat split. discriminate. Qed.

Lemma findCommand_matches_accumulated_name_witness :
  (exists c, c ∈ [cmdAppList; cmdAppCreate] /\ Name c = "app create") /\
  findCommand "app" ["create"] [cmdAppList; cmdAppCreate] g0
    = Ret ([cmdAppList; cmdAppCreate], Some cmdAppCreate, "app create") g0.
Proof.
  pose proof (findCommand_matches_accumulated_name Parse Args
                "app" "create" [] [cmdAppList; cmdAppCreate] g0) as [Hiff Hsel].
  split.
  - apply Hiff. intros cs' name g'. discriminate.
  - apply (Hsel [cmdAppList] cmdAppCreate []); [reflexivity| |reflexivity].
    repeat constructor. simpl. discriminate.
Defined.

(** C3 as stated fails: with [search] being [app] and no argument the
    name that comes back is empty, not [app]. *)
Lemma no_args_does_not_return_the_path :
  findCommand "app" [] commands0 g0 = Ret (commands0, None, "") g0 /\
  ~ (exists cs' g', findCommand "app" [] commands0 g0
                    = Ret (cs', None, "app") g').
Proof. split; [reflexivity|]. intros (cs' & g' & H). discriminate H. Qed.

(** C4 as stated fails: [bogus] names no command, so no token is consumed
    as a command name, yet the name that comes back is [bogus]; after
    [app] was consumed, [bogus] names none of its children and the name is
    [app bogus]; and with [app] alone, consumed, the name is empty. *)
Lemma returned_name_is_not_the_matched_tokens :
  (Forall (fun c => Name c <> "bogus") commands0 /\
   exists cs', findCommand "" ["bogus"] commands0 g0
               = Ret (cs', None, "bogus") g0) /\
  (Forall (fun c => Name c <> "app bogus") (Subcommands cmdApp) /\
   exists cs' d, findCommand "" ["app"; "bogus"] commands0 g0
                 = Ret (cs', Some d, "app bogus") g0 /\ Name d = "app") /\
  (exists cs' d, findCommand "" ["app"] commands0 g0
                 = Ret (cs', Some d, "") g0 /\ Name d = "app").
Proof.
  repeat split.
  - names_differ.
  - by eexists.
  - names_differ.
  - by eexists _, _.
  - by eexists _, _.
Qed.

Lemma findCommand_name_of_last_level_witness :
  exists cs' d,
    findCommand "" ["app"; "bogus"] commands0 g0
      = Ret (cs', Some d, "app bogus") g0 /\
    nameOfNode Args d "app bogus".
Proof.
  eexists _, _. split; [reflexivity|].
  eapply (findCommand_name_of_last_level Parse Args
            "" ["app"; "bogus"] commands0 g0 _ (Some _) _ g0).
  reflexivity.
Defined.

Lemma findCommand_parse_failure_exits_with_node_usage_witness :
  failsAt Parse Args "" ["app"; "create"; "--bogus"] commands0 cmdAppCreate /\
  findCommand "" ["app"; "create"; "--bogus"] commands0 g0
    = Exit ERROR_USAGE
        (mkGlobals globalFlagSet0 globalFlags0 [CommandUsage "app create"]).
Proof.
  assert (H : failsAt Parse Args "" ["app"; "create"; "--bogus"]
                      commands0 cmdAppCreate).
  { apply (failsBelow _ Parse Args "" "app" ["create"; "--bogus"]
             [] cmdApp [cmdHelp]
             (fst (Parse noFlags ["create"; "--bogus"])) cmdAppCreate);
      [constructor|reflexivity|reflexivity|discriminate|].
    apply (failsHere _ Parse Args "app" "create" ["--bogus"]
             [cmdAppList] cmdAppCreate []
             (fst (Parse (Flags cmdAppCreate) ["--bogus"]))
             "flag provided but not defined: -bogus");
      [|reflexivity|reflexivity].
    repeat constructor. simpl. discriminate. }
  split; [exact H|].
  exact (findCommand_parse_failure_exits_with_node_usage Parse Args
           "" ["app"; "create"; "--bogus"] commands0 cmdAppCreate g0 H).
Defined.

Lemma findCommand_touches_matched_path_only_witness :
  exists cs',
    findCommand "" ["app"; "create"; "--label"; "x"] commands0 g0
      = Ret (cs', Some (withFlags cmdAppCreate
                          (fst (Parse (Flags cmdAppCreate) ["--label"; "x"]))),
             "app create") g0 /\
    onMatchedPath Parse Args "" ["app"; "create"; "--label"; "x"]
                  commands0 cs' /\
    pathOnly commands0 cs' /\ cs' !! 1%nat = Some cmdHelp.
Proof.
  eexists. split; [reflexivity|].
  destruct (findCommand_touches_matched_path_only Parse Args
              "" ["app"; "create"; "--label"; "x"] commands0 g0)
    as (_ & _ & H).
  destruct (H _ _ _ _ eq_refl) as (_ & Hon & Hpath & Hrest).
  split; [exact Hon|]. split; [exact Hpath|].
  apply Hrest; [reflexivity|].
  intros tok rest [= <- <-]. left. simpl. discriminate.
Defined.

(** A result in which the flag set of [app list], a child that [bogus]
    does not match, were rewritten would still differ from the registry
    along one path only, but it is not on the matched path. *)
Lemma rewritten_sibling_is_off_the_matched_path :
  let touched :=
    withFlags cmdAppList {| formal := []; actual := []; args := ["x"] |} in
  let bad :=
    [withSubcommands (withFlags cmdApp (fst (Parse noFlags ["bogus"])))
       [touched; cmdAppCreate]; cmdHelp] in
  pathOnly commands0 bad /\
  ~ onMatchedPath Parse Args "" ["app"; "bogus"] commands0 bad.
Proof.
  intros touched bad. split.
  - apply (pathOnly_hit [] cmdApp _ [cmdHelp]); [by repeat split|].
    apply (pathOnly_hit [] cmdAppList touched [cmdAppCreate]);
      [by repeat split|constructor].
  - intros Hbad.
    assert (Hgood : onMatchedPath Parse Args "" ["app"; "bogus"] commands0
                      [withFlags cmdApp (fst (Parse noFlags ["bogus"]));
                       cmdHelp]).
    { eapply (findCommand_ret_onMatchedPath Parse Args
                "" ["app"; "bogus"] commands0 g0 _ _ _ g0). reflexivity. }
    pose proof (onMatchedPath_unique _ _ _ _ _ _ _ Hbad Hgood) as E.
    apply (f_equal (fun l => match l with
                             | c :: _ =>
                                 match Subcommands c with
                                 | d :: _ => args (Flags d)
                                 | [] => []
                                 end
                             | [] => []
                             end)) in E.
    discriminate E.
Qed.

Lemma main_exits_with_handler_result_witness :
  let fs := fst (Parse globalFlagSet0 ["app"; "create"]) in
  Run cmdAppCreate = Some createHandler /\
  createHandler [] {| client := getHawkClient "" "";
                      BasePath := "http://localhost:8000/_ah/api/update/v1/" |}
    = ([], ERROR_USAGE) /\
  main ["app"; "create"] commands0 g0
    = Exit ERROR_USAGE
        (mkGlobals fs (bound fs globalFlags0) [CommandUsage "app create"]).
Proof.
  intros fs. split; [reflexivity|]. split; [reflexivity|].
  refine (main_exits_with_handler_result Parse Args ParseGlobal exitOnError
            update_New "0.1.0" ["app"; "create"] commands0 g0
            fs (bound fs globalFlags0)
            [withSubcommands
               (withFlags cmdApp (fst (Parse noFlags ["create"])))
               [cmdAppList; cmdAppCreate]; cmdHelp]
            cmdAppCreate "app create" createHandler
            {| client := getHawkClient "" ""; BasePath := "" |}
            [] ERROR_USAGE _ _ _ _ _ _ _); reflexivity.
Defined.

Lemma main_unknown_command_witness :
  main ["--debug"; "nope"; "x"] commands0 g0
    = Exit ERROR_NO_COMMAND
        (mkGlobals (fst (Parse globalFlagSet0 ["--debug"; "nope"; "x"]))
           (bound (fst (Parse globalFlagSet0 ["--debug"; "nope"; "x"]))
                  globalFlags0)
           [Printf "%v: unknown subcommand: %q\n" [cliName; "nope"];
            Printf "Run '%v help' for usage.\n" [cliName]]).
Proof.
  refine (proj1 (proj2 (main_unknown_command Parse Args ParseGlobal
                   exitOnError update_New "0.1.0"
                   ["--debug"; "nope"; "x"] commands0 g0
                   _ _ "nope" ["x"] _ _ _ _ _)));
    try reflexivity.
  repeat constructor; simpl; discriminate.
Defined.

(** C9 as stated fails on invocations that contain [--version] before
    any command token: followed by a flag that is not defined, the global
    parse fails and the process exits with 2 having printed nothing;
    followed by [--version=false], the flag is unset again, the command is
    resolved and its handler runs, and with an [update.New] that fails the
    process ends in [log.Fatal], so the client construction is reached. *)
Lemma version_flag_given_does_not_short_circuit :
  (exists g', main ["--version"; "--bogus"] commands0 g0 = Exit 2 g' /\
              output g' = []) /\
  (exists g', main ["--version"; "--version=false"; "app"; "list"] commands0 g0
              = Exit OK g' /\
              output g' = [Fprintf "apps\n" []]) /\
  (exists g', main_failing ["--version"; "--version=false"; "app"; "list"]
                commands0 g0
              = Exit 1 g' /\
              output g' = [LogFatal "client is nil"]).
Proof.
  split; [|split]; eexists; (split; [vm_compute; reflexivity|reflexivity]).
Qed.

Lemma main_version_help_short_circuit_witness :
  main ["--version"; "app"; "list"] commands0 g0
    = Exit OK
        (mkGlobals (fst (Parse globalFlagSet0 ["--version"; "app"; "list"]))
           (bound (fst (Parse globalFlagSet0 ["--version"; "app"; "list"]))
                  globalFlags0)
           [Fprintf "%s version %s\n" [cliName; "0.1.0"]; Flush]).
Proof.
  refine (main_version_help_short_circuit Parse Args ParseGlobal exitOnError
            update_New "0.1.0" ["--version"; "app"; "list"] commands0 g0
            _ _ _ _); [reflexivity|left; reflexivity].
Defined.

End Samples.


(** * Further properties of the code *)

(** ** The flag value adapters (lines 28-82) *)

Section AdapterProperties.
Import Adapters.

Lemma falsy_not_truthy v : v ∈ falseVals -> v ∉ truthVals.
Proof.
  intros Hv; unfold falseVals in Hv;
    repeat (apply elem_of_cons in Hv as [->|Hv]);
    [..|by apply elem_of_nil in Hv];
    intros H; unfold truthVals in H;
    repeat (apply elem_of_cons in H as [H|H]; [discriminate H|]);
    by apply elem_of_nil in H.
Qed.

(** Every input is a falsy literal, a truthy literal or neither. *)
Lemma literal_cases v :
  ((v ∈ falseVals) /\ (v ∉ truthVals)) \/
  ((v ∈ truthVals) /\ (v ∉ falseVals)) \/
  ((v ∉ falseVals) /\ (v ∉ truthVals)).
Proof.
  destruct (decide (v ∈ falseVals)) as [Hf|Hf].
  - left. split; [done|by apply falsy_not_truthy].
  - destruct (decide (v ∈ truthVals)); [right; left|right; right]; done.
Qed.

Lemma BoolFlag_Set_falsy_nil v (h : heap) :
  v ∈ falseVals -> BoolFlag_Set v (mkBoolFlag None) h = Panic.
Proof.
  intros Hv; unfold falseVals in Hv;
    repeat (apply elem_of_cons in Hv as [->|Hv]);
    [..|by apply elem_of_nil in Hv]; reflexivity.
Qed.

(** X1: a truthy literal succeeds in every state, also on an adapter that
    was never set: the adapter then points to a NEW cell holding [true],
    and every cell allocated before, the one the adapter pointed to
    included, keeps its content. *)
Theorem BoolFlag_Set_truthy_allocates v f (h : heap) :
  v ∈ truthVals ->
  exists f' h',
    BoolFlag_Set v f h = Done (None, f', h') /\
    value f' = Some (List.length h) /\
    held f' h' = Some true /\
    forall i b, h !! i = Some b -> h' !! i = Some b.
Proof.
  intros Hv. destruct (BoolFlag_Set_truthy v f h Hv) as [E Hh].
  eexists _, _. split; [exact E|]. split; [reflexivity|]. split; [exact Hh|].
  intros i b Hi. by apply lookup_app_l_Some.
Qed.

(** X2: a falsy literal on an adapter that holds a value writes [false]
    THROUGH the pointer: the adapter keeps its pointer, every adapter that
    shares it holds [false] afterwards, and no other cell changes. *)
Theorem BoolFlag_Set_falsy_writes_through v l (h : heap) :
  v ∈ falseVals -> valid (mkBoolFlag (Some l)) h ->
  exists h',
    BoolFlag_Set v (mkBoolFlag (Some l)) h
      = Done (None, mkBoolFlag (Some l), h') /\
    (forall other, value other = Some l -> held other h' = Some false) /\
    (forall i, i <> l -> h' !! i = h !! i) /\
    List.length h' = List.length h.
Proof.
  intros Hv Hl. destruct (BoolFlag_Set_falsy_when_set v l h Hv Hl) as [E Hh].
  exists (<[l:=false]> h). split; [exact E|]. split; [|split].
  - intros other Ho. unfold held. rewrite Ho. exact Hh.
  - intros i Hi. by apply list_lookup_insert_ne.
  - apply length_insert.
Qed.

(** X3: on valid pointers [Set] panics in one situation only: a falsy
    literal given to an adapter that was never set. *)
Theorem BoolFlag_Set_panics_iff v f (h : heap) :
  valid f h ->
  (BoolFlag_Set v f h = Panic <-> value f = None /\ v ∈ falseVals).
Proof.
  intros Hvalid. destruct f as [[l|]]; simpl in *.
  - split; [|by intros [? _]]. intros HP. exfalso.
    destruct (literal_cases v) as [[Hf _]|[[Ht _]|[Hf Ht]]].
    + by rewrite (proj1 (BoolFlag_Set_falsy_when_set v l h Hf Hvalid)) in HP.
    + by rewrite (proj1 (BoolFlag_Set_truthy v _ h Ht)) in HP.
    + by rewrite (BoolFlag_Set_other v _ h Hf Ht) in HP.
  - split.
    + intros HP. split; [done|].
      destruct (literal_cases v) as [[Hf _]|[[Ht _]|[Hf Ht]]]; [done|..].
      * by rewrite (proj1 (BoolFlag_Set_truthy v _ h Ht)) in HP.
      * by rewrite (BoolFlag_Set_other v _ h Hf Ht) in HP.
    + intros [_ Hf]. by apply BoolFlag_Set_falsy_nil.
Qed.

(** X4: an input outside both literal sets changes neither the adapter nor
    the store; on an adapter that was never set the error is the message
    naming the truthy literals, then the falsy ones. *)
Theorem BoolFlag_Set_other_leaves_state v f (h : heap) :
  v ∉ falseVals -> v ∉ truthVals ->
  exists err,
    BoolFlag_Set v f h = Done (err, f, h) /\
    (value f = None ->
     err = Some "value must be one of [1 t true TRUE True], [0 f false FALSE False]").
Proof.
  intros Hf Ht. eexists. split; [by apply BoolFlag_Set_other|].
  intros ->. reflexivity.
Qed.

(** X5: [String] and [Set] round trip: an adapter holding [b] prints
    [strconv.FormatBool b], and setting it from what it prints succeeds and
    leaves it holding [b]. *)
Theorem BoolFlag_String_Set_roundtrip f (h : heap) b :
  held f h = Some b ->
  BoolFlag_String f h = Done (FormatBool b) /\
  exists f' h',
    BoolFlag_Set (FormatBool b) f h = Done (None, f', h') /\
    held f' h' = Some b.
Proof.
  intros Hb. destruct f as [[l|]]; unfold held in Hb; simpl in Hb; [|done].
  split.
  - unfold BoolFlag_String, load; simpl. by rewrite Hb.
  - assert (Hl : (l < List.length h)%nat) by (by eapply lookup_lt_Some).
    destruct b; simpl.
    + destruct (BoolFlag_Set_truthy "true" (mkBoolFlag (Some l)) h)
        as [E Hh]; [unfold truthVals; repeat constructor|]. eauto.
    + destruct (BoolFlag_Set_falsy_when_set "false" l h) as [E Hh];
        [unfold falseVals; repeat constructor|done|]. eauto.
Qed.

(** X6: whenever [Set] completes, the pointer it leaves is valid, no cell
    was freed, the error is nil exactly when the adapter holds a value
    afterwards, and an error means that nothing was changed. *)
Theorem BoolFlag_Set_keeps_valid v f (h : heap) err f' h' :
  valid f h ->
  BoolFlag_Set v f h = Done (err, f', h') ->
  valid f' h' /\ (List.length h <= List.length h')%nat /\
  (err = None <-> value f' <> None) /\
  (err <> None -> f' = f /\ h' = h).
Proof.
  intros Hvalid E.
  destruct (literal_cases v) as [[Hf _]|[[Ht _]|[Hf Ht]]].
  - destruct f as [[l|]]; [|by rewrite BoolFlag_Set_falsy_nil in E].
    rewrite (proj1 (BoolFlag_Set_falsy_when_set v l h Hf Hvalid)) in E.
    injection E as <- <- <-. unfold valid in *; simpl in *.
    rewrite length_insert. repeat split; try done; lia.
  - rewrite (proj1 (BoolFlag_Set_truthy v f h Ht)) in E.
    injection E as <- <- <-. unfold valid; simpl. rewrite length_app. simpl.
    repeat split; try done; lia.
  - rewrite (BoolFlag_Set_other v f h Hf Ht) in E.
    injection E as <- <- <-.
    destruct f as [[l|]]; unfold valid in *; simpl in *;
      repeat split; try done; lia.
Qed.

(** X7: [StringFlag.Set] always succeeds and the last value wins; [Get]
    tells an adapter set to the empty string from one never set, which
    [String] does not. *)
Theorem StringFlag_Set_Get_String v w (f : StringFlag) :
  let f1 := snd (StringFlag_Set v f) in
  let f2 := snd (StringFlag_Set w f1) in
  fst (StringFlag_Set w f1) = None /\
  StringFlag_Get f2 = Some w /\ StringFlag_String f2 = w /\
  required f2 = required f /\
  (svalue f = None ->
   StringFlag_String (snd (StringFlag_Set "" f)) = StringFlag_String f /\
   StringFlag_Get (snd (StringFlag_Set "" f)) <> StringFlag_Get f).
Proof.
  cbv zeta. do 4 (split; [reflexivity|]).
  intros Hf. unfold StringFlag_String, StringFlag_Get; simpl. rewrite Hf.
  split; [reflexivity|discriminate].
Qed.

End AdapterProperties.

(** ** The resolver (lines 188-218) *)

Section ResolverProperties.

Context {FlagSet : Type}.
Context (Parse : FlagSet -> list string -> FlagSet * option string).
Context (Args : FlagSet -> list string).

Local Abbreviation Cmd := (Command FlagSet).

Lemma withSubcommands_same (c : Cmd) fl :
  withSubcommands (withFlags c fl) (Subcommands c) = withFlags c fl.
Proof. reflexivity. Qed.

(** *** The outcome depends on the arguments only *)

Lemma matched_outcome (c : Cmd) :
  forall key rest,
    exists r : Cmd * Cmd * string + string,
      forall g, matched Parse Args c key rest g
                = match r with
                  | inl x => Ret x g
                  | inr n => Exit ERROR_USAGE (printed g [CommandUsage n])
                  end.
Proof.
  induction c as [c IH] using Command_tree_ind. intros key rest.
  destruct (Parse (Flags c) rest) as [fl [e|]] eqn:HP.
  { exists (inr (Name c)). intros g. by eapply matched_fail. }
  destruct (nil_or_not (Subcommands c)) as [HS|HS].
  { eexists (inl _). intros g. by apply matched_leaf. }
  destruct (Args fl) as [|tok r] eqn:HA.
  { eexists (inl _). intros g.
    rewrite (matched_node _ _ _ _ _ _ _ HP HS), HA. reflexivity. }
  destruct (first_named (searchKey key tok) (Subcommands c))
    as [Hmiss|(pre & d & post & Hsub & Hpre & Hd)].
  { eexists (inl _). intros g.
    rewrite (matched_node _ _ _ _ _ _ _ HP HS), HA, findCommand_cons.
    rewrite scan_miss by done. reflexivity. }
  rewrite Forall_forall in IH.
  destruct (IH d) with (key := searchKey key tok) (rest := r) as [[x|n] Hx].
  { rewrite Hsub. apply elem_of_app. right. by left. }
  - destruct x as [[d' sub] nm]. eexists (inl _). intros g.
    rewrite (matched_node _ _ _ _ _ _ _ HP HS), HA, findCommand_cons, Hsub.
    rewrite (scan_hit _ _ _ _ _ _ _ Hpre Hd), Hx. reflexivity.
  - exists (inr n). intros g.
    rewrite (matched_node _ _ _ _ _ _ _ HP HS), HA, findCommand_cons, Hsub.
    by rewrite (scan_hit _ _ _ _ _ _ _ Hpre Hd), Hx.
Qed.

Lemma findCommand_outcome search args (commands : list Cmd) :
  exists r : Found FlagSet + string,
    forall g, findCommand Parse Args search args commands g
              = match r with
                | inl x => Ret x g
                | inr n => Exit ERROR_USAGE (printed g [CommandUsage n])
                end.
Proof.
  destruct args as [|tok rest]; [by eexists (inl _)|].
  destruct (first_named (searchKey search tok) commands)
    as [Hmiss|(pre & c & post & -> & Hpre & Hc)].
  - eexists (inl _). intros g. rewrite findCommand_cons. by apply scan_miss.
  - destruct (matched_outcome c (searchKey search tok) rest) as [[x|n] Hx].
    + destruct x as [[c' sub] nm]. eexists (inl _). intros g.
      rewrite findCommand_cons, (scan_hit _ _ _ _ _ _ _ Hpre Hc), Hx.
      reflexivity.
    + exists (inr n). intros g.
      by rewrite findCommand_cons, (scan_hit _ _ _ _ _ _ _ Hpre Hc), Hx.
Qed.

(** X8: the resolver reads no package-level state: whether it returns or
    exits, and what it returns, is the same in every state; it writes
    nothing when it returns and exactly one usage block when it exits. *)
Theorem findCommand_ignores_state search args (commands : list Cmd) g1 g2 :
  match findCommand Parse Args search args commands g1 with
  | Ret x g1' =>
      g1' = g1 /\ findCommand Parse Args search args commands g2 = Ret x g2
  | Exit code g1' =>
      exists n, g1' = printed g1 [CommandUsage n] /\
        findCommand Parse Args search args commands g2
          = Exit code (printed g2 [CommandUsage n])
  end.
Proof.
  destruct (findCommand_outcome search args commands) as [[x|n] H];
    rewrite (H g1), (H g2); eauto.
Qed.

(** *** Which node comes back *)

Lemma matched_resolves (c : Cmd) :
  forall search tok rest g c' d name g' pre post,
    matched Parse Args c (searchKey search tok) rest g = Ret (c', d, name) g' ->
    Forall (fun e => Name e <> searchKey search tok) pre ->
    Name c = searchKey search tok ->
    resolves Parse Args search (tok :: rest) (pre ++ c :: post) d name.
Proof.
  induction c as [c IH] using Command_tree_ind.
  intros search tok rest g c' d name g' pre post H Hpre Hc.
  destruct (Parse (Flags c) rest) as [fl [e|]] eqn:HP.
  { by rewrite (matched_fail _ _ _ _ _ _ _ _ HP) in H. }
  destruct (nil_or_not (Subcommands c)) as [HS|HS].
  { rewrite (matched_leaf _ _ _ _ _ _ _ HP HS) in H. inversion H; subst.
    by eapply resolvesLeaf. }
  rewrite (matched_node _ _ _ _ _ _ _ HP HS) in H.
  destruct (findCommand_shape Parse Args (searchKey search tok) (Args fl)
              (Subcommands c) g)
    as [[HA E]|[(t & r & HA & Hmiss & E)
              |(t & r & p2 & d2 & q2 & HA & Hsub & Hp2 & Hd2 & E)]];
    rewrite E in H.
  - inversion H; subst. rewrite withSubcommands_same.
    by eapply resolvesNoArgs.
  - inversion H; subst. rewrite withSubcommands_same.
    by eapply resolvesFallback.
  - destruct (matched Parse Args d2 _ r g) as [[[d' sub] nm] g1|] eqn:Hm;
      [|discriminate H].
    inversion H; subst.
    eapply resolvesDeeper; try done.
    rewrite HA, Hsub. rewrite Forall_forall in IH.
    eapply (IH d2); [|exact Hm|done..].
    rewrite Hsub. apply elem_of_app. right. by left.
Qed.

Lemma resolves_findCommand search args (commands : list Cmd) d name :
  resolves Parse Args search args commands d name ->
  forall g, exists cs',
    findCommand Parse Args search args commands g = Ret (cs', Some d, name) g.
Proof.
  induction 1 as [search tok rest pre c post fl Hpre Hc HP HS
                 |search tok rest pre c post fl Hpre Hc HP HS HA
                 |search tok rest pre c post fl tok2 rest2 Hpre Hc HP HA HS Hm
                 |search tok rest pre c post fl d name Hpre Hc HP HS _ IH];
    intros g; rewrite findCommand_cons, (scan_hit _ _ _ _ _ _ _ Hpre Hc).
  - rewrite (matched_leaf _ _ _ _ _ _ _ HP HS). eauto.
  - rewrite (matched_node _ _ _ _ _ _ _ HP HS), HA. simpl. eauto.
  - rewrite (matched_node _ _ _ _ _ _ _ HP HS), HA, findCommand_cons.
    rewrite scan_miss by done. simpl. eauto.
  - rewrite (matched_node _ _ _ _ _ _ _ HP HS).
    destruct (IH g) as [cs' ->]. simpl. eauto.
Qed.

Lemma findCommand_ret_resolves search args (commands : list Cmd) g cs' d name g' :
  findCommand Parse Args search args commands g = Ret (cs', Some d, name) g' ->
  resolves Parse Args search args commands d name.
Proof.
  intros H.
  destruct (findCommand_shape Parse Args search args commands g)
    as [[HA E]|[(t & r & HA & Hmiss & E)
              |(t & r & pre & c & post & HA & -> & Hpre & Hc & E)]];
    rewrite E in H; try discriminate H.
  destruct (matched Parse Args c _ r g) as [[[c' sub] nm] g1|] eqn:Hm;
    [|discriminate H].
  inversion H; subst. by eapply matched_resolves.
Qed.

(** X9: the node and name that come back are exactly those of the walk
    [resolves]: the first candidate carrying the key is taken, a deeper
    match wins, and when no child carries the next key (or no argument is
    left) the node itself comes back, with its flags parsed. *)
Theorem findCommand_returns_iff_resolves
        search args (commands : list Cmd) g d name :
  (exists cs', findCommand Parse Args search args commands g
               = Ret (cs', Some d, name) g)
  <-> resolves Parse Args search args commands d name.
Proof.
  split.
  - intros [cs' H]. by eapply findCommand_ret_resolves.
  - intros H. by apply resolves_findCommand.
Qed.

Lemma resolves_inTree search args (commands : list Cmd) d name :
  resolves Parse Args search args commands d name ->
  exists c, inTree c commands /\ sameNode c d.
Proof.
  induction 1 as [search tok rest pre c post fl Hpre Hc HP HS
                 |search tok rest pre c post fl Hpre Hc HP HS HA
                 |search tok rest pre c post fl tok2 rest2 Hpre Hc HP HA HS Hm
                 |search tok rest pre c post fl d name Hpre Hc HP HS _ IH].
  1-3: exists c; split; [|apply sameNode_withFlags];
       apply inTree_here, elem_of_app; right; by left.
  destruct IH as (c0 & Hin & Hsame). exists c0. split; [|done].
  eapply inTree_below; [|exact Hin]. apply elem_of_app. right. by left.
Qed.

(** X10: a node that comes back is a node of the registry, at some depth,
    with its name, summary, usage, description and handler as registered:
    the resolver invents no command and swaps no handler. *)
Theorem findCommand_returns_registered_node
        search args (commands : list Cmd) g cs' d name g' :
  findCommand Parse Args search args commands g = Ret (cs', Some d, name) g' ->
  exists c, inTree c commands /\ Name d = Name c /\ Run d = Run c /\
            Summary d = Summary c /\ Usage d = Usage c /\
            Description d = Description c.
Proof.
  intros H. apply findCommand_ret_resolves in H.
  apply resolves_inTree in H as (c & Hin & Hn & Hs & Hu & Hd & Hr).
  exists c. by repeat split.
Qed.

(** *** When the process ends in the resolver *)

Lemma failsAt_exits search args (commands : list Cmd) d :
  failsAt Parse Args search args commands d ->
  forall g, findCommand Parse Args search args commands g
            = Exit ERROR_USAGE (printed g [CommandUsage (Name d)]).
Proof.
  induction 1 as [search tok rest pre c post fl e Hpre Hc HP
                 |search tok rest pre c post fl d Hpre Hc HP HS _ IH];
    intros g; rewrite findCommand_cons, (scan_hit _ _ _ _ _ _ _ Hpre Hc).
  - by rewrite (matched_fail _ _ _ _ _ _ _ _ HP).
  - by rewrite (matched_node _ _ _ _ _ _ _ HP HS), IH.
Qed.

Lemma matched_exit_failsAt (c : Cmd) :
  forall search tok rest g code g' pre post,
    matched Parse Args c (searchKey search tok) rest g = Exit code g' ->
    Forall (fun e => Name e <> searchKey search tok) pre ->
    Name c = searchKey search tok ->
    exists d, failsAt Parse Args search (tok :: rest) (pre ++ c :: post) d.
Proof.
  induction c as [c IH] using Command_tree_ind.
  intros search tok rest g code g' pre post H Hpre Hc.
  destruct (Parse (Flags c) rest) as [fl [e|]] eqn:HP.
  { exists c. by eapply failsHere. }
  destruct (nil_or_not (Subcommands c)) as [HS|HS].
  { by rewrite (matched_leaf _ _ _ _ _ _ _ HP HS) in H. }
  rewrite (matched_node _ _ _ _ _ _ _ HP HS) in H.
  destruct (findCommand_shape Parse Args (searchKey search tok) (Args fl)
              (Subcommands c) g)
    as [[HA E]|[(t & r & HA & Hmiss & E)
              |(t & r & p2 & d2 & q2 & HA & Hsub & Hp2 & Hd2 & E)]];
    rewrite E in H; try discriminate H.
  destruct (matched Parse Args d2 _ r g) as [[[d' sub] nm] g1|code1 g1] eqn:Hm;
    [discriminate H|].
  rewrite Forall_forall in IH.
  assert (Hin : d2 ∈ Subcommands c)
    by (rewrite Hsub; apply elem_of_app; right; by left).
  destruct (IH d2 Hin _ _ _ _ _ _ p2 q2 Hm Hp2 Hd2) as [d Hd].
  exists d. eapply failsBelow; try done. by rewrite HA, Hsub.
Qed.

(** X11: the resolver reaches [os.Exit] in one case only: [Parse] returned
    an error for the flag set of some node on the matched path.  The code
    is then [ERROR_USAGE], the output is what it was followed by the usage
    of that node, and the global flags are untouched. *)
Theorem findCommand_exits_iff_parse_fails
        search args (commands : list Cmd) g code g' :
  findCommand Parse Args search args commands g = Exit code g'
  <-> exists d, failsAt Parse Args search args commands d /\
                code = ERROR_USAGE /\
                globalFlagSet g' = globalFlagSet g /\
                globalFlags g' = globalFlags g /\
                output g' = output g ++ [CommandUsage (Name d)].
Proof.
  split.
  - intros H.
    destruct (findCommand_shape Parse Args search args commands g)
      as [[HA E]|[(t & r & HA & Hmiss & E)
                |(t & r & pre & c & post & HA & -> & Hpre & Hc & E)]];
      rewrite E in H; try discriminate H.
    destruct (matched Parse Args c _ r g) as [[[c' sub] nm] g1|code1 g1] eqn:Hm;
      [discriminate H|].
    destruct (matched_exit_failsAt c _ _ _ _ _ _ pre post Hm Hpre Hc)
      as [d Hd].
    exists d. subst args. split; [done|].
    pose proof (failsAt_exits _ _ _ _ Hd g) as E'.
    rewrite findCommand_cons, (scan_hit _ _ _ _ _ _ _ Hpre Hc), Hm in E'.
    injection H as <- <-. by injection E' as -> ->.
  - intros (d & Hd & -> & Hfs & Hgf & Hout).
    rewrite (failsAt_exits _ _ _ _ Hd g). f_equal.
    destruct g'; simpl in *. unfold printed. by rewrite Hfs, Hgf, Hout.
Qed.

(** *** What resolution leaves of the registry *)

Lemma sameNode_refl (c : Cmd) : sameNode c c.
Proof. by repeat split. Qed.

Lemma sameTree_refl (c : Cmd) : sameTree c c.
Proof.
  induction c as [c IH] using Command_tree_ind.
  constructor; [apply sameNode_refl|].
  induction IH; by constructor.
Qed.

Lemma Forall2_sameTree_refl (cs : list Cmd) : Forall2 sameTree cs cs.
Proof. induction cs; constructor; [apply sameTree_refl|done]. Qed.

Lemma pathOnly_sameTree (cs cs' : list Cmd) :
  pathOnly cs cs' -> Forall2 sameTree cs cs'.
Proof.
  induction 1 as [cs|pre c c' post Hsame _ IH].
  - apply Forall2_sameTree_refl.
  - apply Forall2_app; [apply Forall2_sameTree_refl|].
    constructor; [by constructor|apply Forall2_sameTree_refl].
Qed.

Lemma findCommand_ret_pathOnly search args (commands : list Cmd) g cs' cmd name g' :
  findCommand Parse Args search args commands g = Ret (cs', cmd, name) g' ->
  pathOnly commands cs'.
Proof.
  intros H.
  destruct (findCommand_shape Parse Args search args commands g)
    as [[HA E]|[(t & r & HA & Hmiss & E)
              |(t & r & pre & c & post & HA & -> & Hpre & Hc & E)]];
    rewrite E in H.
  - inversion H; subst. constructor.
  - inversion H; subst. constructor.
  - destruct (matched Parse Args c _ r g) as [[[c' sub] nm] g1|] eqn:Hm;
      [|discriminate H].
    inversion H; subst.
    apply matched_ret in Hm as (_ & Hsame & Hpath & _). by constructor.
Qed.

(** X12: resolution rewrites flag sets and nothing else: the candidates
    that come back are as many as before, in the same order, and each is
    the tree it was in names, texts and handlers, at every depth. *)
Theorem findCommand_keeps_registry_shape
        search args (commands : list Cmd) g cs' cmd name g' :
  findCommand Parse Args search args commands g = Ret (cs', cmd, name) g' ->
  Forall2 sameTree commands cs' /\
  List.length cs' = List.length commands /\
  map Name cs' = map Name commands.
Proof.
  intros H. apply findCommand_ret_pathOnly, pathOnly_sameTree in H.
  split; [done|]. split.
  - symmetry. by eapply Forall2_length.
  - induction H as [|c c' l l' Hc Hl IH]; [done|].
    simpl. f_equal; [|done]. inversion Hc as [a b [Hn _] HF]; subst.
    exact Hn.
Qed.

End ResolverProperties.

(** ** The runner and [main] (lines 154-169, 220-257) *)

Section RunnerProperties.

Context {FlagSet : Type}.
Context (Parse : FlagSet -> list string -> FlagSet * option string).
Context (Args : FlagSet -> list string).
Context (ParseGlobal : FlagSet -> GlobalFlags -> list string ->
                       FlagSet * GlobalFlags * option string).
Context (exitOnError : string -> Z).
Context (update_New : Client -> Service + string).
Context (version_Version : string).

Local Abbreviation Cmd := (Command FlagSet).
Local Abbreviation run_main :=
  (main Parse Args ParseGlobal exitOnError update_New version_Version).

Lemma handle_outcome (run : handlerFunc) f (g : Globals FlagSet) :
  handle Args update_New run f g
    = match update_New (getHawkClient (User (globalFlags g))
                                      (Key (globalFlags g))) with
      | inr err => Exit 1 (printed g [LogFatal err])
      | inl service =>
          Ret (snd (run (Args f)
                        {| client := client service;
                           BasePath := Server (globalFlags g)
                                       +:+ "/_ah/api/update/v1/" |}))
              (printed g
                 (fst (run (Args f)
                           {| client := client service;
                              BasePath := Server (globalFlags g)
                                          +:+ "/_ah/api/update/v1/" |})))
      end.
Proof.
  unfold handle, bind, getGlobals.
  destruct (update_New _) as [service|err]; [|reflexivity].
  destruct (run _ _) as [written exit]. by rewrite emits_printed.
Qed.

Lemma main_parse_error osArgs (commands : list Cmd) g fs gf e :
  ParseGlobal (globalFlagSet g) (globalFlags g) osArgs = (fs, gf, Some e) ->
  run_main osArgs commands g
    = Exit (exitOnError e) (mkGlobals fs gf (output g)).
Proof. intros HP. unfold main, bind, getGlobals. by rewrite HP. Qed.

Lemma main_version_help_short_circuit_aux osArgs (commands : list Cmd) g fs gf :
  ParseGlobal (globalFlagSet g) (globalFlags g) osArgs = (fs, gf, None) ->
  run_main osArgs commands g
    = if Version gf
      then Exit OK (mkGlobals fs gf
                      (output g ++
                       [Fprintf "%s version %s\n" [cliName; version_Version];
                        Flush]))
      else if Help gf
           then Exit OK (mkGlobals fs gf (output g ++ [GlobalUsage]))
           else run_main osArgs commands g.
Proof.
  intros HP. destruct (Version gf) eqn:HV; [|destruct (Help gf) eqn:HH; [|done]];
    unfold main, bind, getGlobals; rewrite HP, HV; [|rewrite HH; reflexivity].
  unfold printVersion, bind, emit, os_Exit, printed; simpl.
  by rewrite <- app_assoc.
Qed.

(** X14: giving no command is giving [help]: two runs whose global
    flags parse to the same values, one leaving no argument and the other
    the single argument [help], exit with the same code after printing the
    same things. *)
Theorem main_no_command_is_help a1 a2 (commands : list Cmd) g fs1 fs2 gf :
  ParseGlobal (globalFlagSet g) (globalFlags g) a1 = (fs1, gf, None) ->
  ParseGlobal (globalFlagSet g) (globalFlags g) a2 = (fs2, gf, None) ->
  Args fs1 = [] -> Args fs2 = ["help"] ->
  exists code out,
    run_main a1 commands g = Exit code (mkGlobals fs1 gf out) /\
    run_main a2 commands g = Exit code (mkGlobals fs2 gf out).
Proof.
  intros HP1 HP2 HA1 HA2.
  destruct (Version gf) eqn:HV.
  { eexists _, _.
    by rewrite (main_version_help_short_circuit_aux _ _ _ _ _ HP1),
               (main_version_help_short_circuit_aux _ _ _ _ _ HP2), HV. }
  destruct (Help gf) eqn:HH.
  { eexists _, _.
    by rewrite (main_version_help_short_circuit_aux _ _ _ _ _ HP1),
               (main_version_help_short_circuit_aux _ _ _ _ _ HP2), HV, HH. }
  rewrite (main_resolves _ _ _ _ _ _ _ _ _ _ _ HP1 HV HH),
          (main_resolves _ _ _ _ _ _ _ _ _ _ _ HP2 HV HH), HA1, HA2.
  change (orHelp []) with ["help"]. change (orHelp ["help"]) with ["help"].
  destruct (findCommand_outcome Parse Args "" ["help"] commands)
    as [[[[cs' [cmd|]] name]|n] E]; rewrite !E; unfold printed; simpl; eauto.
  destruct (Run cmd) as [run|]; simpl; eauto.
  rewrite !handle_outcome; simpl.
  destruct (update_New _) as [service|err]; unfold printed; simpl; eauto.
Qed.

(** X15: a node without a handler cannot be run: when resolution ends on
    one, [main] prints the usage of that node and exits with
    [ERROR_USAGE], without building a client. *)
Theorem main_group_node_is_usage_error
        osArgs (commands : list Cmd) g fs gf cs' cmd name :
  ParseGlobal (globalFlagSet g) (globalFlags g) osArgs = (fs, gf, None) ->
  Version gf = false -> Help gf = false ->
  findCommand Parse Args "" (orHelp (Args fs)) commands
      (mkGlobals fs gf (output g))
    = Ret (cs', Some cmd, name) (mkGlobals fs gf (output g)) ->
  Run cmd = None ->
  run_main osArgs commands g
    = Exit ERROR_USAGE
        (mkGlobals fs gf (output g ++ [CommandUsage (Name cmd)])).
Proof.
  intros HP HV HH HF HR.
  by rewrite (main_resolves _ _ _ _ _ _ _ _ _ _ _ HP HV HH), HF, HR.
Qed.

(** X16: when the global flags do not parse, the process ends there with
    the code the flag library chooses: the program itself prints nothing
    and neither resolves a command nor builds a client, whatever the
    registry is. *)
Theorem main_global_parse_error_exits
        osArgs (commands : list Cmd) g fs gf e :
  ParseGlobal (globalFlagSet g) (globalFlags g) osArgs = (fs, gf, Some e) ->
  run_main osArgs commands g
    = Exit (exitOnError e) (mkGlobals fs gf (output g)) /\
  forall commands' : list Cmd,
    run_main osArgs commands' g = run_main osArgs commands g.
Proof.
  intros HP. split; [by eapply main_parse_error|].
  intros commands'. by rewrite !(main_parse_error _ _ _ _ _ _ HP).
Qed.

(** X17: when [update.New] fails, the handler is never called: the error
    is logged and the process exits with 1, whatever the handler would
    have done, and no usage is printed. *)
Theorem main_client_failure_is_fatal
        osArgs (commands : list Cmd) g fs gf cs' cmd name
        (run : handlerFunc) err :
  ParseGlobal (globalFlagSet g) (globalFlags g) osArgs = (fs, gf, None) ->
  Version gf = false -> Help gf = false ->
  findCommand Parse Args "" (orHelp (Args fs)) commands
      (mkGlobals fs gf (output g))
    = Ret (cs', Some cmd, name) (mkGlobals fs gf (output g)) ->
  Run cmd = Some run ->
  update_New (getHawkClient (User gf) (Key gf)) = inr err ->
  run_main osArgs commands g
    = Exit 1 (mkGlobals fs gf (output g ++ [LogFatal err])).
Proof.
  intros HP HV HH HF HR HN.
  rewrite (main_resolves _ _ _ _ _ _ _ _ _ _ _ HP HV HH), HF, HR.
  rewrite handle_outcome; simpl. by rewrite HN.
Qed.

(** X18: a flag set on the matched path that rejects its arguments ends
    the whole process: [main] exits with [ERROR_USAGE] having printed the
    usage of that node only; no handler runs and no client is built. *)
Theorem main_parse_failure_is_usage_error
        osArgs (commands : list Cmd) g fs gf d :
  ParseGlobal (globalFlagSet g) (globalFlags g) osArgs = (fs, gf, None) ->
  Version gf = false -> Help gf = false ->
  failsAt Parse Args "" (orHelp (Args fs)) commands d ->
  run_main osArgs commands g
    = Exit ERROR_USAGE (mkGlobals fs gf (output g ++ [CommandUsage (Name d)])).
Proof.
  intros HP HV HH Hfail.
  rewrite (main_resolves _ _ _ _ _ _ _ _ _ _ _ HP HV HH).
  by rewrite (failsAt_exits _ _ _ _ _ _ Hfail).
Qed.

End RunnerProperties.

(** ** The further properties on sample inputs *)

Section SampleProperties.
Import Adapters GoFlag.

Local Abbreviation g0 := globals0.

Lemma BoolFlag_Set_truthy_allocates_witness :
  ("TRUE" ∈ truthVals) /\
  exists f' h',
    BoolFlag_Set "TRUE" (mkBoolFlag None) [false] = Done (None, f', h') /\
    value f' = Some 1%nat /\
    held f' h' = Some true /\
    forall i b, [false] !! i = Some b -> h' !! i = Some b.
Proof.
  assert (H : "TRUE" ∈ truthVals) by (unfold truthVals; repeat constructor).
  split; [exact H|].
  exact (BoolFlag_Set_truthy_allocates "TRUE" (mkBoolFlag None) [false] H).
Defined.

Lemma BoolFlag_Set_falsy_writes_through_witness :
  ("0" ∈ falseVals) /\ valid (mkBoolFlag (Some 0%nat)) [true] /\
  exists h',
    BoolFlag_Set "0" (mkBoolFlag (Some 0%nat)) [true]
      = Done (None, mkBoolFlag (Some 0%nat), h') /\
    (forall other, value other = Some 0%nat -> held other h' = Some false) /\
    (forall i, i <> 0%nat -> h' !! i = [true] !! i) /\
    List.length h' = 1%nat.
Proof.
  assert (H : "0" ∈ falseVals) by (unfold falseVals; repeat constructor).
  assert (Hv : valid (mkBoolFlag (Some 0%nat)) [true])
    by (unfold valid; simpl; lia).
  split; [exact H|]. split; [exact Hv|].
  exact (BoolFlag_Set_falsy_writes_through "0" 0%nat [true] H Hv).
Defined.

Lemma BoolFlag_Set_panics_iff_witness :
  valid (mkBoolFlag None) [] /\
  (BoolFlag_Set "f" (mkBoolFlag None) [] = Panic
   <-> value (mkBoolFlag None) = None /\ ("f" ∈ falseVals)).
Proof.
  assert (Hv : valid (mkBoolFlag None) []) by exact I.
  split; [exact Hv|].
  exact (BoolFlag_Set_panics_iff "f" (mkBoolFlag None) [] Hv).
Defined.

Lemma not_a_literal : ("yes" ∉ falseVals) /\ ("yes" ∉ truthVals).
Proof.
  split; intros H; [unfold falseVals in H|unfold truthVals in H];
    repeat (apply elem_of_cons in H as [H|H]; [discriminate H|]);
    by apply elem_of_nil in H.
Qed.

Lemma BoolFlag_Set_other_leaves_state_witness :
  ("yes" ∉ falseVals) /\ ("yes" ∉ truthVals) /\
  exists err,
    BoolFlag_Set "yes" (mkBoolFlag None) [true]
      = Done (err, mkBoolFlag None, [true]) /\
    (value (mkBoolFlag None) = None ->
     err = Some "value must be one of [1 t true TRUE True], [0 f false FALSE False]").
Proof.
  destruct not_a_literal as [Hf Ht].
  split; [exact Hf|]. split; [exact Ht|].
  exact (BoolFlag_Set_other_leaves_state "yes" (mkBoolFlag None) [true] Hf Ht).
Defined.

Lemma BoolFlag_String_Set_roundtrip_witness :
  held (mkBoolFlag (Some 0%nat)) [false] = Some false /\
  BoolFlag_String (mkBoolFlag (Some 0%nat)) [false] = Done "false" /\
  exists f' h',
    BoolFlag_Set "false" (mkBoolFlag (Some 0%nat)) [false]
      = Done (None, f', h') /\
    held f' h' = Some false.
Proof.
  split; [reflexivity|].
  exact (BoolFlag_String_Set_roundtrip
           (mkBoolFlag (Some 0%nat)) [false] false eq_refl).
Defined.

Lemma BoolFlag_Set_keeps_valid_witness :
  valid (mkBoolFlag None) [] /\
  BoolFlag_Set "true" (mkBoolFlag None) []
    = Done (None, mkBoolFlag (Some 0%nat), [true]) /\
  valid (mkBoolFlag (Some 0%nat)) [true] /\
  (0 <= 1)%nat /\
  (@None string = None <-> Some 0%nat <> None) /\
  (@None string <> None ->
   mkBoolFlag (Some 0%nat) = mkBoolFlag None /\ [true] = []).
Proof.
  split; [exact I|]. split; [reflexivity|].
  exact (BoolFlag_Set_keeps_valid "true" (mkBoolFlag None) []
           None (mkBoolFlag (Some 0%nat)) [true] I eq_refl).
Defined.

Lemma StringFlag_Set_Get_String_witness :
  svalue (mkStringFlag None false) = None /\
  StringFlag_Get (snd (StringFlag_Set "" (mkStringFlag None false)))
    <> StringFlag_Get (mkStringFlag None false).
Proof.
  split; [reflexivity|].
  pose proof (StringFlag_Set_Get_String "a" "" (mkStringFlag None false)) as H.
  destruct H as (_ & _ & _ & _ & H). exact (proj2 (H eq_refl)).
Defined.

Lemma findCommand_returns_registered_node_witness :
  findCommand "" ["app"; "list"] commands0 g0
    = Ret ([withSubcommands (withFlags cmdApp (fst (Parse noFlags ["list"])))
              [cmdAppList; cmdAppCreate]; cmdHelp],
           Some cmdAppList, "app list") g0 /\
  exists c, inTree c commands0 /\ Name cmdAppList = Name c /\
            Run cmdAppList = Run c /\ Summary cmdAppList = Summary c /\
            Usage cmdAppList = Usage c /\
            Description cmdAppList = Description c.
Proof.
  split; [reflexivity|].
  exact (findCommand_returns_registered_node Parse Args
           "" ["app"; "list"] commands0 g0 _ cmdAppList "app list" g0 eq_refl).
Defined.

Lemma findCommand_keeps_registry_shape_witness :
  exists cs' d,
    findCommand "" ["app"; "create"; "--label"; "x"] commands0 g0
      = Ret (cs', Some d, "app create") g0 /\
    Forall2 sameTree commands0 cs' /\
    List.length cs' = List.length commands0 /\
    map Name cs' = map Name commands0.
Proof.
  eexists _, _. split; [reflexivity|].
  eapply (findCommand_keeps_registry_shape Parse Args
            "" ["app"; "create"; "--label"; "x"] commands0 g0 _ _ _ g0).
  reflexivity.
Defined.

Lemma main_no_command_is_help_witness :
  Args (fst (Parse globalFlagSet0 [])) = [] /\
  Args (fst (Parse globalFlagSet0 ["help"])) = ["help"] /\
  exists code out,
    main [] commands0 g0
      = Exit code (mkGlobals (fst (Parse globalFlagSet0 [])) globalFlags0 out)
    /\
    main ["help"] commands0 g0
      = Exit code
          (mkGlobals (fst (Parse globalFlagSet0 ["help"])) globalFlags0 out).
Proof.
  split; [reflexivity|]. split; [reflexivity|].
  exact (main_no_command_is_help Parse Args ParseGlobal exitOnError update_New
           "0.1.0" [] ["help"] commands0 g0 _ _ globalFlags0
           eq_refl eq_refl eq_refl eq_refl).
Defined.

Lemma main_group_node_is_usage_error_witness :
  Run cmdApp = None /\
  main ["app"] commands0 g0
    = Exit ERROR_USAGE
        (mkGlobals (fst (Parse globalFlagSet0 ["app"])) globalFlags0
                   [CommandUsage "app"]).
Proof.
  split; [reflexivity|].
  exact (main_group_node_is_usage_error Parse Args ParseGlobal exitOnError
           update_New "0.1.0" ["app"] commands0 g0
           (fst (Parse globalFlagSet0 ["app"])) globalFlags0
           commands0 cmdApp "" eq_refl eq_refl eq_refl eq_refl eq_refl).
Defined.

Lemma main_global_parse_error_exits_witness :
  snd (ParseGlobal globalFlagSet0 globalFlags0 ["-x"; "app"])
    = Some "flag provided but not defined: -x" /\
  main ["-x"; "app"] commands0 g0
    = Exit 2 (mkGlobals (fst (Parse globalFlagSet0 ["-x"; "app"]))
                        globalFlags0 []).
Proof.
  split; [reflexivity|].
  exact (proj1 (main_global_parse_error_exits Parse Args ParseGlobal
                  exitOnError update_New "0.1.0" ["-x"; "app"] commands0 g0
                  (fst (Parse globalFlagSet0 ["-x"; "app"])) globalFlags0
                  "flag provided but not defined: -x" eq_refl)).
Defined.

Lemma main_client_failure_is_fatal_witness :
  main_failing ["app"; "list"] commands0 g0
    = Exit 1 (mkGlobals (fst (Parse globalFlagSet0 ["app"; "list"]))
                        globalFlags0 [LogFatal "client is nil"]).
Proof.
  eapply (main_client_failure_is_fatal Parse Args ParseGlobal exitOnError
            update_New_failing "0.1.0" ["app"; "list"] commands0 g0
            (fst (Parse globalFlagSet0 ["app"; "list"])) globalFlags0
            _ _ _ _ "client is nil"); reflexivity.
Defined.

Lemma sample_parse_failure :
  failsAt Parse Args "" ["app"; "create"; "--bogus"] commands0 cmdAppCreate.
Proof.
  apply (failsBelow _ Parse Args "" "app" ["create"; "--bogus"]
           [] cmdApp [cmdHelp]
           (fst (Parse noFlags ["create"; "--bogus"])) cmdAppCreate);
    [constructor|reflexivity|reflexivity|discriminate|].
  apply (failsHere _ Parse Args "app" "create" ["--bogus"]
           [cmdAppList] cmdAppCreate []
           (fst (Parse (Flags cmdAppCreate) ["--bogus"]))
           "flag provided but not defined: -bogus");
    [|reflexivity|reflexivity].
  repeat constructor. simpl. discriminate.
Defined.

Lemma main_parse_failure_is_usage_error_witness :
  failsAt Parse Args "" ["app"; "create"; "--bogus"] commands0 cmdAppCreate /\
  main ["app"; "create"; "--bogus"] commands0 g0
    = Exit ERROR_USAGE
        (mkGlobals (fst (Parse globalFlagSet0 ["app"; "create"; "--bogus"]))
                   globalFlags0 [CommandUsage "app create"]).
Proof.
  split; [exact sample_parse_failure|].
  exact (main_parse_failure_is_usage_error Parse Args ParseGlobal exitOnError
           update_New "0.1.0" ["app"; "create"; "--bogus"] commands0 g0
           (fst (Parse globalFlagSet0 ["app"; "create"; "--bogus"]))
           globalFlags0 cmdAppCreate eq_refl eq_refl eq_refl
           sample_parse_failure).
Defined.

End SampleProperties.
